(** * The ingestion-and-retrieval pipeline of the textbook chatbot

    A shallow embedding of
    - [backend/chatbot/utils/text_processor.py]  (class [TextProcessor]),
    - [backend/services/embedding_service.py]     (class [EmbeddingService]),
    - [backend/nodejs/services/vector_store_service.py] (class [VectorStoreService]),
    - [backend/services/database_service.py]      (class [DocumentService]),
    - [backend/python/ingest.py]                  ([process_document]),
    - [backend/services/chat_service.py]          ([get_context_aware_response]),
    followed by the properties of the specification, each one settled
    against these definitions.

    Conventions of the embedding:
    - a function that calls a provider or the database is a computation
      over a [World] (tables, collection, uuid supply, log of calls) that
      returns a value or raises; which calls raise is fixed by the
      environment, and a call that raises has had no effect;
    - the clients are taken as constructed (the constructors of the
      services are not part of the embedding) and [print] is left out;
    - the tables of a [World] hold what is committed; what the database
      session holds unflushed is a parameter [db] of the methods of
      [DocumentService], as in the source.  The values of the timestamps
      are left out: of [updated_at] only matters whether a flush can
      write it;
    - a Python [int] is a [Z], a [str] a [string], a list a [list], a
      payload dictionary a [gmap string value]. *)

From Stdlib Require Import ZArith Ascii String List Bool Lia Sorted Permutation.
From stdpp Require Import base option list strings gmap.

Local Open Scope string_scope.
Local Open Scope list_scope.
Local Open Scope Z_scope.

(** ** Python built-ins used by the sources *)

Module Py.

(** A Python [str] is a sequence of code points; the embedding keeps the
    code points 0..255 ([ascii]), one character each, so that [len] is
    [String.length]. *)

(** [str.isspace] on one character, which is also what [\s] matches in
    [re] on a [str] pattern: in the range 0..255 these are the code
    points 9-13, 28-32, 133 and 160. *)
Definition isspace (c : ascii) : bool :=
  let n := nat_of_ascii c in
  ((9 <=? n)%nat && (n <=? 13)%nat) || ((28 <=? n)%nat && (n <=? 32)%nat)
  || (n =? 133)%nat || (n =? 160)%nat.

(** The newline character, [\n] in the patterns of [clean_text]. *)
Definition newline : ascii := ascii_of_nat 10.

Definition is_newline (c : ascii) : bool := Ascii.eqb c newline.

(** The character class [[.!?]] of the sentence pattern. *)
Definition is_sentence_end (c : ascii) : bool :=
  Ascii.eqb c "."%char || Ascii.eqb c "!"%char || Ascii.eqb c "?"%char.

(** [len(s)], a Python [int]. *)
Definition len (s : string) : Z := Z.of_nat (String.length s).

(** Truth value of a [str]: the empty string is false. *)
Definition truthy (s : string) : bool :=
  match s with EmptyString => false | String _ _ => true end.

(** [s.lstrip()], [s.rstrip()] and [s.strip()]. *)
Fixpoint lstrip (s : string) : string :=
  match s with
  | EmptyString => EmptyString
  | String c s' => if isspace c then lstrip s' else s
  end.

Fixpoint rstrip (s : string) : string :=
  match s with
  | EmptyString => EmptyString
  | String c s' =>
      match rstrip s' with
      | EmptyString => if isspace c then EmptyString else String c EmptyString
      | r => String c r
      end
  end.

Definition strip (s : string) : string := rstrip (lstrip s).

(** [s.split()]: the maximal runs of non-whitespace characters, in
    order.  [split_go s] returns the (possibly empty) word that starts at
    the head of [s] and the words after it. *)
Fixpoint split_go (s : string) : string * list string :=
  match s with
  | EmptyString => (EmptyString, [])
  | String c s' =>
      let '(w, ws) := split_go s' in
      if isspace c
      then (EmptyString, if truthy w then w :: ws else ws)
      else (String c w, ws)
  end.

Definition split (s : string) : list string :=
  let '(w, ws) := split_go s in if truthy w then w :: ws else ws.

(** [sep.join(parts)]. *)
Fixpoint join (sep : string) (parts : list string) : string :=
  match parts with
  | [] => EmptyString
  | [p] => p
  | p :: ps => p +:+ sep +:+ join sep ps
  end.

(** The slice [l[i:]] for a Python [int] [i]: a negative [i] counts
    from the end, and either bound is clamped to the list. *)
Definition slice_from {A} (i : Z) (l : list A) : list A :=
  if 0 <=? i then drop (Z.to_nat i) l
  else drop (length l - Z.to_nat (- i)) l.

(** The slice [l[:n]] for a constant [n >= 0]. *)
Definition slice_to {A} (n : nat) (l : list A) : list A := take n l.

(** [re.split(r'(?<=[.!?])\s+', text)].  A separator starts at a
    whitespace character that follows one of [.!?] and extends over the
    whole whitespace run; the pieces between separators are returned,
    the last one also when it is empty.  [cur] is the piece being read,
    reversed; [after_end] tells that the previous character is one of
    [.!?]; [in_sep] that a separator is being consumed. *)
Fixpoint re_split_sentences_go (s : string) (cur : list ascii)
    (after_end in_sep : bool) : list string :=
  match s with
  | EmptyString => [string_of_list_ascii (rev cur)]
  | String c s' =>
      if in_sep && isspace c then re_split_sentences_go s' cur false true
      else if after_end && isspace c
      then string_of_list_ascii (rev cur) :: re_split_sentences_go s' [] false true
      else re_split_sentences_go s' (c :: cur) (is_sentence_end c) false
  end.

Definition re_split_sentences (text : string) : list string :=
  re_split_sentences_go text [] false false.

(** [re.sub(r'\s+', ' ', text)]: every maximal whitespace run becomes
    one space.  [in_run] tells that the previous character belongs to a
    run that is already replaced. *)
Fixpoint re_sub_spaces_go (s : string) (in_run : bool) : string :=
  match s with
  | EmptyString => EmptyString
  | String c s' =>
      if isspace c
      then if in_run then re_sub_spaces_go s' true
           else String " "%char (re_sub_spaces_go s' true)
      else String c (re_sub_spaces_go s' false)
  end.

Definition re_sub_spaces (text : string) : string := re_sub_spaces_go text false.

(** Does the whitespace run at the head of [s] contain a newline? *)
Fixpoint run_has_newline (s : string) : bool :=
  match s with
  | EmptyString => false
  | String c s' => isspace c && (is_newline c || run_has_newline s')
  end.

(** [re.sub(r'\n\s*\n', '\n\n', text)].  A match starts at a newline
    whose following whitespace run holds another newline and, [\s*]
    being greedy, ends at the last newline of that run; the search
    resumes after it.  [in_match] tells that a match is being consumed. *)
Fixpoint re_sub_blank_lines_go (s : string) (in_match : bool) : string :=
  match s with
  | EmptyString => EmptyString
  | String c s' =>
      if in_match
      then re_sub_blank_lines_go s' (negb (is_newline c) || run_has_newline s')
      else if is_newline c && run_has_newline s'
      then String newline (String newline (re_sub_blank_lines_go s' true))
      else String c (re_sub_blank_lines_go s' false)
  end.

Definition re_sub_blank_lines (text : string) : string :=
  re_sub_blank_lines_go text false.

End Py.

(** ** [TextProcessor] (text_processor.py) *)

Module TextProcessor.
Import Py.

(** The state of the sentence loop of [chunk_text]: the chunks closed so
    far and the running chunk. *)
Definition chunk_state : Type := list string * string.

(** One iteration of [for sentence in sentences]. *)
Definition chunk_step (chunk_size overlap : Z) (st : chunk_state)
    (sentence : string) : chunk_state :=
  let '(chunks, current_chunk) := st in
  if len current_chunk + len sentence >? chunk_size then
    if truthy current_chunk then
      let chunks := chunks ++ [strip current_chunk] in
      if overlap >? 0 then
        let words := split current_chunk in
        let overlap_text :=
          join " " (slice_from (- Z.min (Z.of_nat (length words)) overlap) words) in
        (chunks, overlap_text +:+ " " +:+ sentence)
      else (chunks, sentence)
    else (chunks ++ [strip sentence], "")
  else (chunks, if truthy current_chunk then current_chunk +:+ " " +:+ sentence
                else sentence).

(** The chunks of the sentence loop, the last running chunk included
    when it is not the empty string. *)
Definition sentence_chunks (text : string) (chunk_size overlap : Z) : list string :=
  let sentences := re_split_sentences text in
  let '(chunks, current_chunk) :=
    fold_left (chunk_step chunk_size overlap) sentences ([], "") in
  if truthy current_chunk then chunks ++ [strip current_chunk] else chunks.

(** The state of the word loop of [_split_large_chunk]: the closed
    sub-chunks, the words of the running sub-chunk and [current_size]. *)
Definition split_state : Type := list string * list string * Z.

Definition sum_len (ws : list string) : Z :=
  fold_right (fun w acc => len w + acc) 0 ws.

(** One iteration of [for word in words]. *)
Definition split_step (chunk_size overlap : Z) (st : split_state)
    (word : string) : split_state :=
  let '(chunks, current_sub_chunk, current_size) := st in
  if (current_size + len word >? chunk_size)
     && negb (Nat.eqb (length current_sub_chunk) 0) then
    let chunks := chunks ++ [join " " current_sub_chunk] in
    if overlap >? 0 then
      let overlap_words :=
        if Z.of_nat (length current_sub_chunk) >=? overlap
        then slice_from (- overlap) current_sub_chunk
        else current_sub_chunk in
      let current_sub_chunk := overlap_words ++ [word] in
      (chunks, current_sub_chunk,
       sum_len current_sub_chunk + Z.of_nat (length current_sub_chunk) - 1)
    else (chunks, [word], len word)
  else (chunks, current_sub_chunk ++ [word], current_size + (len word + 1)).

Definition _split_large_chunk (chunk : string) (chunk_size overlap : Z)
    : list string :=
  let words := split chunk in
  let '(chunks, current_sub_chunk, _) :=
    fold_left (split_step chunk_size overlap) words ([], [], 0) in
  match current_sub_chunk with
  | [] => chunks
  | _ => chunks ++ [join " " current_sub_chunk]
  end.

(** [chunk_text(text, chunk_size, overlap)]; the defaults of the source
    are [chunk_size = 1000] and [overlap = 100]. *)
Definition chunk_text (text : string) (chunk_size overlap : Z) : list string :=
  let chunks := sentence_chunks text chunk_size overlap in
  fold_left
    (fun final_chunks chunk =>
       if len chunk >? chunk_size
       then final_chunks ++ _split_large_chunk chunk chunk_size overlap
       else final_chunks ++ [chunk])
    chunks [].

(** [clean_text(text)]. *)
Definition clean_text (text : string) : string :=
  let text := re_sub_spaces text in
  let text := re_sub_blank_lines text in
  strip text.

End TextProcessor.

(** ** The world of the services: tables, collection, providers *)

Module World.

(** [str(uuid.uuid4())]: the identifiers are opaque, and the world hands
    out one that was never used before at each request. *)
Definition uuid : Type := nat.

(** A value stored in a payload dictionary. *)
Inductive value : Type :=
| VStr (s : string)
| VInt (i : Z)
| VId (u : uuid).

Global Instance value_eq_dec : EqDecision value.
Proof. solve_decision. Defined.

(** An embedding: a list of floats, kept as opaque scalars. *)
Definition vector : Type := list Z.

(** A point of the Qdrant collection ([models.PointStruct]). *)
Record Point : Type := mkPoint {
  point_id : uuid;
  point_vector : vector;
  point_payload : gmap string value
}.

Global Instance Point_eq_dec : EqDecision Point.
Proof. solve_decision. Defined.

(** A row of [documents] (models.py, class [Document]); the two
    timestamps are left out. *)
Record Document : Type := mkDocument {
  doc_id : uuid;
  source_path : string;
  title : string;
  content_hash : string;
  is_processed : bool
}.

(** A row of [document_chunks] (models.py, class [DocumentChunk]). *)
Record DocumentChunk : Type := mkDocumentChunk {
  chunk_id : uuid;
  document_id : uuid;
  chunk_index : Z;
  content : string;
  vector_id : option uuid;
  token_count : Z
}.

(** A call that leaves the process: to the embedding or chat provider,
    to the Qdrant client, or to the database session. *)
Inductive Call : Type :=
| EmbeddingsCreate (input : list string)
| ChatCompletionsCreate (system_message user_message : string)
| QdrantUpsert (points : list Point)
| QdrantSearch (query_vector : vector) (limit : Z)
| QdrantScroll (path : string) (limit : Z)
| QdrantDelete (points : list uuid)
| DbGetDocumentBySourcePath (path : string)
| DbCreateDocument (path : string)
| DbCreateDocumentChunk (document : uuid) (index : Z)
| DbUpdateDocumentProcessedStatus (document : uuid).

Definition is_db_call (c : Call) : bool :=
  match c with
  | DbGetDocumentBySourcePath _ | DbCreateDocument _
  | DbCreateDocumentChunk _ _ | DbUpdateDocumentProcessedStatus _ => true
  | _ => false
  end.

(** What lies outside the repository: the digest function of [hashlib],
    the embedding and chat models, the similarity of the collection
    (cosine, as a totally ordered score), and which calls raise. *)
Record Env : Type := mkEnv {
  sha256_hexdigest : string -> string;
  embedding_model : string -> vector;
  chat_model : string -> string -> string;
  similarity : vector -> vector -> Z;
  raises : Call -> bool
}.

(** The state the services work on.  [calls] lists the calls made so
    far, oldest first. *)
Record World : Type := mkWorld {
  documents : list Document;
  document_chunks : list DocumentChunk;
  collection : list Point;
  next_uuid : nat;
  calls : list Call
}.

Definition set_documents (ds : list Document) (w : World) : World :=
  mkWorld ds (document_chunks w) (collection w) (next_uuid w) (calls w).
Definition set_document_chunks (cs : list DocumentChunk) (w : World) : World :=
  mkWorld (documents w) cs (collection w) (next_uuid w) (calls w).
Definition set_collection (ps : list Point) (w : World) : World :=
  mkWorld (documents w) (document_chunks w) ps (next_uuid w) (calls w).
Definition set_next_uuid (n : nat) (w : World) : World :=
  mkWorld (documents w) (document_chunks w) (collection w) n (calls w).
Definition add_call (c : Call) (w : World) : World :=
  mkWorld (documents w) (document_chunks w) (collection w) (next_uuid w)
          (calls w ++ [c]).

(** *** Computations: state and exceptions *)

Inductive result (A : Type) : Type :=
| Ok (a : A)
| Raise.
Arguments Ok {A} a.
Arguments Raise {A}.

Definition M (A : Type) : Type := World -> result A * World.

Definition ret {A} (a : A) : M A := fun w => (Ok a, w).

Definition bind {A B} (m : M A) (k : A -> M B) : M B :=
  fun w => match m w with
           | (Ok a, w') => k a w'
           | (Raise, w') => (Raise, w')
           end.

Definition raise {A} : M A := fun w => (Raise, w).

(** [try: body except Exception: handler]. *)
Definition try_except {A} (body handler : M A) : M A :=
  fun w => match body w with
           | (Ok a, w') => (Ok a, w')
           | (Raise, w') => handler w'
           end.

Definition get {A} (f : World -> A) : M A := fun w => (Ok (f w), w).
Definition modify (f : World -> World) : M unit := fun w => (Ok tt, f w).

Declare Scope m_scope.
Delimit Scope m_scope with M.
Notation "x <- m ;; k" := (bind m (fun x => k))
  (at level 100, m at next level, right associativity) : m_scope.
Notation "m ;; k" := (bind m (fun _ => k))
  (at level 100, right associativity) : m_scope.

(** [for x in xs: body x], left to right, stopping at the first raise. *)
Fixpoint for_each {A} (xs : list A) (body : A -> M unit) : M unit :=
  match xs with
  | [] => ret tt
  | x :: xs' => bind (body x) (fun _ => for_each xs' body)
  end.

(** A comprehension [[f x for x in xs]] whose [f] may raise. *)
Fixpoint map_m {A B} (f : A -> M B) (xs : list A) : M (list B) :=
  match xs with
  | [] => ret []
  | x :: xs' => bind (f x) (fun y => bind (map_m f xs') (fun ys => ret (y :: ys)))
  end.

(** [enumerate(xs)]. *)
Definition enumerate {A} (xs : list A) : list (nat * A) :=
  imap (fun i x => (i, x)) xs.

Section WithEnv.
Variable env : Env.

(** A call to the outside: logged, and it raises when [env] says so,
    leaving tables and collection as they are. *)
Definition call (c : Call) : M unit :=
  fun w => (if raises env c then Raise else Ok tt, add_call c w).

(** [uuid.uuid4()]. *)
Definition uuid4 : M uuid :=
  fun w => (Ok (next_uuid w), set_next_uuid (S (next_uuid w)) w).

End WithEnv.
End World.

(** ** [EmbeddingService] (embedding_service.py) *)

Module EmbeddingService.
Import World.
Local Open Scope m_scope.

Section WithEnv.
Variable env : Env.

(** [create_embeddings(texts)]: one vector per text, or the empty list
    when the provider call raises. *)
Definition create_embeddings (texts : list string) : M (list vector) :=
  try_except
    (call env (EmbeddingsCreate texts) ;;
     ret (map (embedding_model env) texts))
    (ret []).

(** [create_embedding(text)]. *)
Definition create_embedding (text : string) : M vector :=
  embeddings <- create_embeddings [text] ;;
  ret (match embeddings with
       | e :: _ => e
       | [] => []
       end).

End WithEnv.
End EmbeddingService.

(** ** The Qdrant client, by its contract *)

Module Qdrant.
Import World.
Local Open Scope m_scope.

(** [upsert]: a point replaces the stored point of the same id, or is
    added after the stored ones. *)
Fixpoint upsert_point (p : Point) (coll : list Point) : list Point :=
  match coll with
  | [] => [p]
  | q :: coll' =>
      if Nat.eqb (point_id q) (point_id p) then p :: coll'
      else q :: upsert_point p coll'
  end.

Definition upsert_points (ps : list Point) (coll : list Point) : list Point :=
  fold_left (fun acc p => upsert_point p acc) ps coll.

(** The filter of [delete_by_source_path]: payload key [source_path]
    matches the value. *)
Definition has_source_path (path : string) (p : Point) : bool :=
  bool_decide (point_payload p !! "source_path" = Some (VStr path)).

(** A scored point, as [search] returns it. *)
Record Hit : Type := mkHit {
  hit_id : uuid;
  hit_score : Z;
  hit_payload : gmap string value
}.

(** Ranking: descending by score, equal scores in stored order
    ([rank] inserts from the last stored point to the first). *)
Fixpoint insert_hit (h : Hit) (hs : list Hit) : list Hit :=
  match hs with
  | [] => [h]
  | h' :: hs' =>
      if hit_score h' <=? hit_score h then h :: hs
      else h' :: insert_hit h hs'
  end.

Definition rank (hs : list Hit) : list Hit :=
  fold_right insert_hit [] hs.

(** What iterating over the reply of [scroll] yields: the reply is the
    pair (records, next page offset), as [get_all_sources] of the same
    class unpacks it, so the items are the list of records and the
    offset. *)
Inductive scroll_item : Type :=
| Records (records : list Point)
| NextPageOffset (offset : option uuid).

Section WithEnv.
Variable env : Env.

(** [client.upsert(collection_name, points)]. *)
Definition upsert (points : list Point) : M unit :=
  call env (QdrantUpsert points) ;;
  modify (fun w => set_collection (upsert_points points (collection w)) w).

(** [client.search(collection_name, query_vector, limit)]: the [limit]
    nearest points, best first. *)
Definition score_point (query_vector : vector) (p : Point) : Hit :=
  mkHit (point_id p) (similarity env query_vector (point_vector p))
        (point_payload p).

Definition search (query_vector : vector) (limit : Z) : M (list Hit) :=
  call env (QdrantSearch query_vector limit) ;;
  coll <- get collection ;;
  ret (take (Z.to_nat limit) (rank (map (score_point query_vector) coll))).

(** [client.scroll(collection_name, scroll_filter, limit)]: the first
    [limit] matching records and the id of the next one, if any. *)
Definition scroll (path : string) (limit : Z) : M (list Point * option uuid) :=
  call env (QdrantScroll path limit) ;;
  coll <- get collection ;;
  let matching := filter (fun p => has_source_path path p = true) coll in
  ret (take (Z.to_nat limit) matching,
       point_id <$> (drop (Z.to_nat limit) matching) !! 0%nat).

(** [client.delete(collection_name, PointIdsList(points))]. *)
Definition delete (ids : list uuid) : M unit :=
  call env (QdrantDelete ids) ;;
  modify (fun w =>
    set_collection
      (filter (fun p => bool_decide (point_id p ∈ ids) = false) (collection w)) w).

End WithEnv.
End Qdrant.

(** ** [VectorStoreService] (vector_store_service.py) *)

Module VectorStoreService.
Import World.
Local Open Scope m_scope.

(** One formatted result of [search_similar]. *)
Record SearchResult : Type := mkSearchResult {
  result_id : uuid;
  result_text : value;
  result_score : Z;
  result_metadata : gmap string value
}.

(** [xs[i]], which raises when [i] is out of range. *)
Definition index {A} (xs : list A) (i : nat) : M A :=
  match xs !! i with
  | Some x => ret x
  | None => raise
  end.

(** [point, _ = item] followed by [point.id], for an item of the reply of
    [scroll].  A list unpacks into two names only when it holds exactly
    two records; the offset is [None] or an id, and neither unpacks into
    a point. *)
Definition unpack_point_id (item : Qdrant.scroll_item) : M uuid :=
  match item with
  | Qdrant.Records [point; _] => ret (point_id point)
  | Qdrant.Records _ => raise
  | Qdrant.NextPageOffset _ => raise
  end.

(** "Format results": the dictionary built for one hit. *)
Definition format_result (hit : Qdrant.Hit) : SearchResult :=
  mkSearchResult
    (Qdrant.hit_id hit)
    (default (VStr "") (Qdrant.hit_payload hit !! "text"))
    (Qdrant.hit_score hit)
    (base.delete "text" (Qdrant.hit_payload hit)).

Section WithEnv.
Variable env : Env.

(** [store_embeddings(texts, metadata)]; [metadata] defaults to [None]. *)
Definition store_embeddings (texts : list string)
    (metadata : option (list (gmap string value))) : M (list uuid) :=
  try_except
    (embeddings <- EmbeddingService.create_embeddings env texts ;;
     ids <- map_m (fun _ => uuid4) (seq 0 (length texts)) ;;
     points <- map_m
       (fun '(i, (text, embedding)) =>
          payload <- match metadata with
                     | Some ((_ :: _) as md) =>
                         if (i <? length md)%nat then index md i else ret ∅
                     | _ => ret ∅
                     end ;;
          let payload := <["text" := VStr text]> payload in
          id <- index ids i ;;
          ret (mkPoint id embedding payload))
       (enumerate (zip texts embeddings)) ;;
     Qdrant.upsert env points ;;
     ret ids)
    (ret []).

(** [search_similar(query_text, limit)]; [limit] defaults to 5. *)
Definition search_similar (query_text : string) (limit : Z)
    : M (list SearchResult) :=
  try_except
    (query_embedding <- EmbeddingService.create_embedding env query_text ;;
     search_results <- Qdrant.search env query_embedding limit ;;
     ret (map format_result search_results))
    (ret []).

(** [delete_by_source_path(source_path)].  [points] is the reply of
    [scroll] as it is, and the comprehension iterates over it. *)
Definition delete_by_source_path (source_path : string) : M unit :=
  try_except
    (points <- Qdrant.scroll env source_path 10000 ;;
     ids_to_delete <- map_m unpack_point_id
       [Qdrant.Records (fst points); Qdrant.NextPageOffset (snd points)] ;;
     match ids_to_delete with
     | [] => ret tt
     | _ => Qdrant.delete env ids_to_delete
     end)
    (ret tt).

End WithEnv.
End VectorStoreService.

(** ** [DocumentService] (database_service.py) *)

Module DocumentService.
Import World.
Local Open Scope m_scope.

(** The first element that satisfies [p], updated by [f]. *)
Fixpoint update_first {A} (p : A -> bool) (f : A -> A) (xs : list A) : list A :=
  match xs with
  | [] => []
  | x :: xs' => if p x then f x :: xs' else x :: update_first p f xs'
  end.

Definition has_path (path : string) (d : Document) : bool :=
  String.eqb (source_path d) path.

Definition has_id (id : uuid) (d : Document) : bool :=
  Nat.eqb (doc_id d) id.

Definition with_content_hash (h : string) (d : Document) : Document :=
  mkDocument (doc_id d) (source_path d) (title d) h (is_processed d).

Definition with_is_processed (b : bool) (d : Document) : Document :=
  mkDocument (doc_id d) (source_path d) (title d) (content_hash d) b.

(** What the session [db] holds unflushed when a method is called.
    Every method of this class commits what it changes, so the session
    is [Clean] between calls unless the caller has assigned to a row
    object itself.  [process_document] does, on the document it found:
    it assigns the new [content_hash], and to [updated_at] the default
    of that column, a function and not a timestamp.  Until [updated_at]
    is assigned again, no flush can write the row: the session is
    [Dirty], with the id of the row and the hash that waits. *)
Inductive Session : Type :=
| Clean
| Dirty (document_id : uuid) (content_hash : string).

(** The row object the session hands out for a row of the table: it
    carries the assignments that wait in the session. *)
Definition as_loaded (db : Session) (d : Document) : Document :=
  match db with
  | Clean => d
  | Dirty id h => if Nat.eqb id (doc_id d) then with_content_hash h d else d
  end.

(** The flush at the head of [db.commit()]: it raises when a row waits
    with an [updated_at] that is not a timestamp. *)
Definition flush (db : Session) : M unit :=
  match db with
  | Clean => ret tt
  | Dirty _ _ => raise
  end.

Section WithEnv.
Variable env : Env.

(** [create_document]: [id] and [is_processed] take their column
    defaults, a fresh uuid and [False]. *)
Definition create_document (db : Session) (source_path title content_hash : string)
    : M Document :=
  call env (DbCreateDocument source_path) ;;
  flush db ;;
  id <- uuid4 ;;
  let document := mkDocument id source_path title content_hash false in
  modify (fun w => set_documents (documents w ++ [document]) w) ;;
  ret document.

(** [get_document_by_source_path]: [.first()] of the filtered query.
    The session is made with [autoflush=False], so the query reads the
    table and flushes nothing. *)
Definition get_document_by_source_path (db : Session) (source_path : string)
    : M (option Document) :=
  call env (DbGetDocumentBySourcePath source_path) ;;
  ds <- get documents ;;
  ret (as_loaded db <$> List.find (has_path source_path) ds).

(** [update_document_processed_status]: the row is looked up by id and,
    when it exists, [is_processed] and [updated_at] are assigned and the
    session is committed.  The assignment to [updated_at] makes a row
    that waited writable again, and the commit then writes the hash that
    waited with it; a commit with another row waiting raises. *)
Definition update_document_processed_status (db : Session) (document_id : uuid)
    (is_processed : bool) : M unit :=
  call env (DbUpdateDocumentProcessedStatus document_id) ;;
  ds <- get documents ;;
  match List.find (has_id document_id) ds with
  | Some _ =>
      match db with
      | Clean =>
          modify (fun w =>
            set_documents
              (update_first (has_id document_id) (with_is_processed is_processed)
                            (documents w)) w)
      | Dirty id h =>
          if Nat.eqb id document_id
          then modify (fun w =>
                 set_documents
                   (update_first (has_id document_id)
                      (fun d => with_is_processed is_processed (with_content_hash h d))
                      (documents w)) w)
          else raise
      end
  | None => ret tt
  end.

(** [create_document_chunk]. *)
Definition create_document_chunk (db : Session) (document_id : uuid)
    (chunk_index : Z) (content : string) (token_count : Z)
    (vector_id : option uuid) : M DocumentChunk :=
  call env (DbCreateDocumentChunk document_id chunk_index) ;;
  flush db ;;
  id <- uuid4 ;;
  let chunk :=
    mkDocumentChunk id document_id chunk_index content vector_id token_count in
  modify (fun w => set_document_chunks (document_chunks w ++ [chunk]) w) ;;
  ret chunk.

End WithEnv.
End DocumentService.

(** ** ingest.py *)

Module Ingest.
Import World.
Local Open Scope m_scope.

(** An entry of [chunk_data]: the dictionary with the keys [index],
    [content] and [token_count]. *)
Module ChunkData.
Record t : Type := make {
  index : Z;
  content : string;
  token_count : Z
}.
End ChunkData.

(** [chunk_document(content, chunk_size, overlap)]; the defaults are
    [chunk_size = 1000] and [overlap = 100]. *)
Definition chunk_document (content : string) (chunk_size overlap : Z)
    : list ChunkData.t :=
  let chunks := TextProcessor.chunk_text content chunk_size overlap in
  map (fun '(i, chunk) =>
         ChunkData.make (Z.of_nat i) chunk (Z.of_nat (length (Py.split chunk))))
      (enumerate chunks).

(** The metadata dictionary [process_document] builds for a chunk. *)
Definition chunk_metadata (relative_path : string) (document_id : uuid)
    (chunk : ChunkData.t) : gmap string value :=
  {[ "source_path" := VStr relative_path;
     "document_id" := VId document_id;
     "chunk_index" := VInt (ChunkData.index chunk) ]}.

Section WithEnv.
Variable env : Env.

(** [calculate_content_hash(content)]. *)
Definition calculate_content_hash (content : string) : string :=
  sha256_hexdigest env content.

(** "Create or update document record".  For the row found for the
    path, [doc.content_hash] and [doc.updated_at] are assigned and
    nothing is written: [doc.__class__.updated_at.default.arg] is the
    function the column calls for its default, so the session is
    [Dirty] from here on.  Otherwise a row is created and committed.
    The result is [doc] and the session as it is left. *)
Definition create_or_update_document_record
    (relative_path stem content_hash : string)
    (existing_doc : option Document)
    : M (Document * DocumentService.Session) :=
  match existing_doc with
  | Some existing =>
      ret (DocumentService.with_content_hash content_hash existing,
           DocumentService.Dirty (doc_id existing) content_hash)
  | None =>
      doc <- DocumentService.create_document env DocumentService.Clean
               relative_path stem content_hash ;;
      ret (doc, DocumentService.Clean)
  end.

(** From "Chunk the document" to the end of [process_document], with
    the session [db]. *)
Definition chunk_embed_and_record_in (db : DocumentService.Session)
    (relative_path content : string) (doc : Document) : M unit :=
  let chunk_data := chunk_document content 1000 100 in
  let texts := map ChunkData.content chunk_data in
  let metadata := map (chunk_metadata relative_path (doc_id doc)) chunk_data in
  vector_ids <- VectorStoreService.store_embeddings env texts (Some metadata) ;;
  for_each (enumerate chunk_data)
    (fun '(i, chunk) =>
       DocumentService.create_document_chunk env db (doc_id doc)
         (ChunkData.index chunk) (ChunkData.content chunk)
         (ChunkData.token_count chunk) (vector_ids !! i) ;;
       ret tt) ;;
  DocumentService.update_document_processed_status env db (doc_id doc) true.

(** The same with a session that holds nothing unflushed, as it is
    after [create_document]. *)
Definition chunk_embed_and_record (relative_path content : string)
    (doc : Document) : M unit :=
  chunk_embed_and_record_in DocumentService.Clean relative_path content doc.

(** [process_document(file_path, vector_store, db_session)], given the
    path of the file relative to the working directory, its stem and its
    content, and a session that holds nothing unflushed.  The function
    returns early for an unchanged document. *)
Definition process_document (relative_path stem content : string) : M unit :=
  let content_hash := calculate_content_hash content in
  existing_doc <- DocumentService.get_document_by_source_path env
                    DocumentService.Clean relative_path ;;
  unchanged <-
    match existing_doc with
    | Some existing =>
        if String.eqb (World.content_hash existing) content_hash
        then ret true
        else VectorStoreService.delete_by_source_path env relative_path ;;
             ret false
    | None => ret false
    end ;;
  if unchanged : bool then ret tt
  else
    bind (create_or_update_document_record relative_path stem content_hash
            existing_doc)
         (fun '(doc, db) => chunk_embed_and_record_in db relative_path content doc).

End WithEnv.
End Ingest.

(** ** [ChatService] (chat_service.py) *)

Module ChatService.
Import World.
Local Open Scope m_scope.

(** The dictionary returned by [get_context_aware_response]. *)
Record Reply : Type := mkReply {
  response : string;
  sources : list string
}.

Definition nl : string := String Py.newline EmptyString.

Definition indent : string := "                ".

(** The system message built around [context]. *)
Definition system_message_with (context : string) : string :=
  "You are an AI assistant for the Physical AI & Humanoid Robotics textbook."
  +:+ nl +:+ indent
  +:+ "Use the following context from the textbook to answer the user's question:"
  +:+ nl +:+ nl +:+ indent +:+ context +:+ nl +:+ nl +:+ indent
  +:+ "If the context doesn't contain relevant information, say so.".

Definition system_message_without : string :=
  "You are an AI assistant for the Physical AI & Humanoid Robotics textbook. Answer the user's question based on general knowledge about robotics and AI.".

(** [sep.join(parts)] on values: it raises unless every part is a [str]. *)
Definition join_values (sep : string) (parts : list value) : M string :=
  strs <- map_m (fun v => match v with
                          | VStr s => ret s
                          | _ => raise
                          end) parts ;;
  ret (Py.join sep strs).

Section WithEnv.
Variable env : Env.

(** "Prepare the context": the selected text when there is one, the
    texts of the search results otherwise. *)
Definition context_texts_of (user_message : string)
    (selected_text : option string) : M (list value) :=
  match selected_text with
  | Some ((String _ _) as text) => ret [VStr text]
  | _ =>
      search_results <- VectorStoreService.search_similar env user_message 5 ;;
      ret (map VectorStoreService.result_text search_results)
  end.

(** [get_context_aware_response(user_message, selected_text)]. *)
Definition get_context_aware_response (user_message : string)
    (selected_text : option string) : M Reply :=
  try_except
    (context_texts <- context_texts_of user_message selected_text ;;
     system_message <-
       match context_texts with
       | [] => ret system_message_without
       | _ =>
           context <- join_values (nl +:+ nl) (Py.slice_to 3 context_texts) ;;
           ret (system_message_with context)
       end ;;
     call env (ChatCompletionsCreate system_message user_message) ;;
     let ai_response := chat_model env system_message user_message in
     let sources := match context_texts with
                    | [] => []
                    | _ => ["textbook_content"]
                    end in
     ret (mkReply ai_response sources))
    (ret (mkReply "Sorry, I encountered an error processing your request." [])).

(** [get_basic_response(user_message)]. *)
Definition get_basic_response (user_message : string) : M Reply :=
  get_context_aware_response user_message None.

End WithEnv.
End ChatService.

(** ** [TextProcessor.extract_headings] (text_processor.py) *)

Module Headings.
Import Py.

(** [text.split(sep)] for a one-character separator: the pieces between
    the separators, empty pieces included. *)
Fixpoint split_on (sep : ascii) (text : string) : list string :=
  match text with
  | EmptyString => [EmptyString]
  | String c text' =>
      if Ascii.eqb c sep then EmptyString :: split_on sep text'
      else match split_on sep text' with
           | piece :: pieces => String c piece :: pieces
           | [] => [String c EmptyString]
           end
  end.

Definition is_hash (c : ascii) : bool := Ascii.eqb c "#"%char.

(** Does [s] start with [n] characters [#]? *)
Fixpoint starts_with_hashes (n : nat) (s : string) : bool :=
  match n, s with
  | O, _ => true
  | S n', String c s' => is_hash c && starts_with_hashes n' s'
  | S _, EmptyString => false
  end.

(** [s[n:]]. *)
Fixpoint string_drop (n : nat) (s : string) : string :=
  match n, s with
  | O, _ => s
  | S n', String _ s' => string_drop n' s'
  | S _, EmptyString => EmptyString
  end.

(** [(.+)] at the head of [s]: the characters up to the first newline,
    at least one. *)
Fixpoint up_to_newline (s : string) : string :=
  match s with
  | EmptyString => EmptyString
  | String c s' => if is_newline c then EmptyString else String c (up_to_newline s')
  end.

Definition match_dot_plus (s : string) : option string :=
  match up_to_newline s with
  | EmptyString => None
  | g => Some g
  end.

(** [\s*(.+)] at the head of [s]; [\s*] is greedy and gives characters
    back only when the rest cannot match. *)
Fixpoint match_spaces_dot_plus (s : string) : option string :=
  match s with
  | EmptyString => None
  | String c s' =>
      if isspace c
      then match match_spaces_dot_plus s' with
           | Some g => Some g
           | None => match_dot_plus s
           end
      else match_dot_plus s
  end.

(** [\s+(.+)] at the head of [s]. *)
Definition match_space_plus_dot_plus (s : string) : option string :=
  match s with
  | String c s' => if isspace c then match_spaces_dot_plus s' else None
  | EmptyString => None
  end.

(** [re.match(r'^(#{1,6})\s+(.+)', line)] with at most [n] characters
    [#] in the first group, the longest group first: the length of
    group 1 and group 2. *)
Fixpoint match_heading_upto (n : nat) (line : string) : option (nat * string) :=
  match n with
  | O => None
  | S n' =>
      if starts_with_hashes n line
      then match match_space_plus_dot_plus (string_drop n line) with
           | Some g => Some (n, g)
           | None => match_heading_upto n' line
           end
      else match_heading_upto n' line
  end.

Definition re_match_heading (line : string) : option (nat * string) :=
  match_heading_upto 6 line.

(** An entry of the result: the dictionary with the keys [level], [text]
    and [position]. *)
Record Heading : Type := mkHeading {
  level : Z;
  text : string;
  position : Z
}.

(** One iteration of [for i, line in enumerate(lines)]. *)
Definition heading_step (headings : list Heading) (entry : nat * string)
    : list Heading :=
  let '(i, line) := entry in
  match re_match_heading line with
  | Some (hashes, group2) =>
      headings ++ [mkHeading (Z.of_nat hashes) (strip group2) (Z.of_nat i)]
  | None => headings
  end.

(** [extract_headings(text)]. *)
Definition extract_headings (text : string) : list Heading :=
  let lines := split_on newline text in
  fold_left heading_step (World.enumerate lines) [].

End Headings.

(** ** The properties of the specification, as it words them *)

Module Stated.
Import Py TextProcessor.

(** Chunk bound: every emitted chunk is within [chunk_size], except a
    chunk that is one sentence or one word of the text, itself longer
    than [chunk_size] and emitted as it is. *)
Definition chunk_bound (text : string) (chunk_size overlap : Z) : Prop :=
  Forall (fun chunk =>
            len chunk <= chunk_size
            \/ (chunk_size < len chunk
                /\ (In chunk (map strip (re_split_sentences text))
                    \/ In chunk (split text))))
         (chunk_text text chunk_size overlap).

(** Overlap: when chunk [i] has at least [n] words, the first [n] words
    of chunk [i+1] are the last [n] words of chunk [i]. *)
Definition overlap_between (n : nat) (chunk next_chunk : string) : Prop :=
  (n <= length (split chunk))%nat ->
  take n (split next_chunk) = drop (length (split chunk) - n) (split chunk).

Definition chunk_overlap (text : string) (chunk_size : Z) (n : nat) : Prop :=
  forall (i : nat) (chunk next_chunk : string),
    chunk_text text chunk_size (Z.of_nat n) !! i = Some chunk ->
    chunk_text text chunk_size (Z.of_nat n) !! S i = Some next_chunk ->
    overlap_between n chunk next_chunk.

(** A text made of whitespace only (the empty text included). *)
Fixpoint whitespace_only (text : string) : bool :=
  match text with
  | EmptyString => true
  | String c text' => isspace c && whitespace_only text'
  end.

(** The characters of a text. *)
Definition chars (text : string) : list ascii := list_ascii_of_string text.

End Stated.

(** ** Auxiliary notions for the proofs *)

Module Aux.
Import Py.
(** A word: not empty, no whitespace in it. *)
Fixpoint no_space (s : string) : bool :=
  match s with
  | EmptyString => true
  | String c s' => negb (isspace c) && no_space s'
  end.

Definition is_word (w : string) : Prop := truthy w = true /\ no_space w = true.

(** What the post-pass of [chunk_text] emits for one chunk. *)
Definition resplit (chunk_size overlap : Z) (chunk : string) : list string :=
  if len chunk >? chunk_size
  then TextProcessor._split_large_chunk chunk chunk_size overlap
  else [chunk].

(** A window that is within [chunk_size], or is the word [w0] alone. *)
Definition fits (chunk_size : Z) (w0 s : string) : Prop :=
  len s <= chunk_size \/ s = w0.

(** The invariant of the word loop about its first window, once the
    running window holds a word. *)
Definition first_inv (chunk_size : Z) (w0 : string)
    (st : TextProcessor.split_state) : Prop :=
  let '(chunks, current, size) := st in
  current <> []
  /\ match chunks with
     | first :: _ => fits chunk_size w0 first
     | [] => size = len (join " " current) + 1
             /\ fits chunk_size w0 (join " " current)
     end.

(** The words a closed window hands to the next one. *)
Definition seed (n : nat) (window : list string) : list string :=
  drop (length window - n) window.

Definition seeds (n : nat) (a b : list string) : Prop := seed n a `prefix_of` b.

(** Every two neighbours of a list are related by [R]. *)
Definition adjacent {A} (R : A -> A -> Prop) (l : list A) : Prop :=
  forall (i : nat) (a b : A), l !! i = Some a -> l !! S i = Some b -> R a b.

(** The windows behind the state of the word loop: the closed ones and
    the running one. *)
Definition windows_of (closed : list (list string)) (current : list string)
    : list (list string) :=
  match current with
  | [] => closed
  | _ => closed ++ [current]
  end.

(** The invariant of the word loop about neighbouring windows. *)
Definition overlap_inv (n : nat) (st : TextProcessor.split_state) : Prop :=
  let '(chunks, current, _) := st in
  exists closed,
    chunks = map (join " ") closed
    /\ Forall (Forall is_word) (windows_of closed current)
    /\ adjacent (seeds n) (windows_of closed current)
    /\ (current = [] -> closed = []).

(** A chunk of the sentence pass that is one sentence of the text,
    longer than [chunk_size], which overflowed the empty running chunk
    and was emitted alone. *)
Definition emitted_alone (chunk_size : Z) (sentences : list string)
    (chunk : string) : Prop :=
  exists sentence,
    In sentence sentences /\ chunk_size < len sentence /\ chunk = strip sentence.

(** What two neighbours of the sentence pass satisfy: the later one
    starts with the last [n] words of the earlier one (all its words
    when it has fewer), unless the earlier one was emitted alone. *)
Definition carries_over (chunk_size : Z) (n : nat) (sentences : list string)
    (chunk next_chunk : string) : Prop :=
  seeds n (split chunk) (split next_chunk)
  \/ emitted_alone chunk_size sentences chunk.

(** The invariant of the sentence loop about neighbouring chunks: it
    holds among the closed chunks, and between the last closed chunk and
    the running one. *)
Definition sentence_inv (chunk_size : Z) (n : nat) (sentences : list string)
    (st : TextProcessor.chunk_state) : Prop :=
  let '(chunks, current) := st in
  adjacent (carries_over chunk_size n sentences) chunks
  /\ forall last_chunk, last chunks = Some last_chunk ->
       carries_over chunk_size n sentences last_chunk current.

End Aux.

(** ** What the services compute, in closed form *)

Module Outcome.
Import World Ingest.

(** The embeddings [create_embeddings] returns. *)
Definition embeddings_of (env : Env) (texts : list string) : list vector :=
  if raises env (EmbeddingsCreate texts) then []
  else map (embedding_model env) texts.

(** The payload [store_embeddings] starts from at position [i]. *)
Definition payload_at (metadata : option (list (gmap string value))) (i : nat)
    : gmap string value :=
  match metadata with
  | Some md => default ∅ (md !! i)
  | None => ∅
  end.

(** The point [store_embeddings] builds for one enumerated pair. *)
Definition point_of (ids : list uuid) (metadata : option (list (gmap string value)))
    (entry : nat * (string * vector)) : Point :=
  let '(i, (text, embedding)) := entry in
  mkPoint (default 0%nat (ids !! i)) embedding
          (<["text" := VStr text]> (payload_at metadata i)).

(** The points [store_embeddings] sends to [upsert] when the next unused
    uuid is [u]. *)
Definition points_of (env : Env) (texts : list string)
    (metadata : option (list (gmap string value))) (u : nat) : list Point :=
  map (point_of (seq u (length texts)) metadata)
      (enumerate (zip texts (embeddings_of env texts))).

(** The query vector [search_similar] searches with. *)
Definition query_vector_of (env : Env) (query_text : string) : vector :=
  match embeddings_of env [query_text] with
  | e :: _ => e
  | [] => []
  end.

(** The ids [store_embeddings] returns. *)
Definition returned_ids (env : Env) (texts : list string)
    (metadata : option (list (gmap string value))) (w : World) : list uuid :=
  if raises env (QdrantUpsert (points_of env texts metadata (next_uuid w)))
  then [] else seq (next_uuid w) (length texts).

(** The world [store_embeddings] leaves. *)
Definition after_store (env : Env) (texts : list string)
    (metadata : option (list (gmap string value))) (w : World) : World :=
  let points := points_of env texts metadata (next_uuid w) in
  let w2 := add_call (QdrantUpsert points)
              (set_next_uuid (next_uuid w + length texts)
                 (add_call (EmbeddingsCreate texts) w)) in
  if raises env (QdrantUpsert points) then w2
  else set_collection (Qdrant.upsert_points points (collection w2)) w2.

(** The row written for one enumerated chunk, with [id] as its key. *)
Definition chunk_row (document : uuid) (vector_ids : list uuid) (id : uuid)
    (entry : nat * ChunkData.t) : DocumentChunk :=
  let '(i, chunk) := entry in
  mkDocumentChunk id document (ChunkData.index chunk) (ChunkData.content chunk)
                  (vector_ids !! i) (ChunkData.token_count chunk).

(** The rows written for the enumerated chunks, keyed from [u] on. *)
Fixpoint rows_from (document : uuid) (vector_ids : list uuid) (u : nat)
    (entries : list (nat * ChunkData.t)) : list DocumentChunk :=
  match entries with
  | [] => []
  | entry :: entries' =>
      chunk_row document vector_ids u entry
      :: rows_from document vector_ids (S u) entries'
  end.

(** The database calls of the chunk loop. *)
Definition chunk_calls (document : uuid) (entries : list (nat * ChunkData.t))
    : list Call :=
  map (fun entry => DbCreateDocumentChunk document (ChunkData.index (snd entry)))
      entries.

(** No call to the database session raises. *)
Definition no_db_raises (env : Env) : Prop :=
  forall c, is_db_call c = true -> raises env c = false.


(** Hits in non-increasing order of score. *)
Definition descending : list Qdrant.Hit -> Prop :=
  StronglySorted (fun a b => Qdrant.hit_score b <= Qdrant.hit_score a).

End Outcome.

(** ** The properties about the services, as the specification words them *)

Module StatedServices.
Import World Outcome Ingest.

(** [store_embeddings] as the specification words it: the fresh ids on
    success, the empty list on any embedding or upsert failure. *)
Definition ids_or_empty (env : Env) (texts : list string)
    (metadata : option (list (gmap string value))) (w : World) : Prop :=
  let points := points_of env texts metadata (next_uuid w) in
  let returned := fst (VectorStoreService.store_embeddings env texts metadata w) in
  (raises env (EmbeddingsCreate texts) = false ->
   raises env (QdrantUpsert points) = false ->
   returned = Ok (seq (next_uuid w) (length texts)))
  /\ (raises env (EmbeddingsCreate texts) = true -> returned = Ok [])
  /\ (raises env (QdrantUpsert points) = true -> returned = Ok []).






(** "Every provider-level error inside the operation is caught and
    upsert becomes a no-op returning an empty id list", the provider
    calls of [store_embeddings] being the embedding call and the
    upsert. *)
Definition failure_gives_no_ids (env : Env) (texts : list string)
    (metadata : option (list (gmap string value))) (w : World) : Prop :=
  let points := points_of env texts metadata (next_uuid w) in
  raises env (EmbeddingsCreate texts) = true
  \/ raises env (QdrantUpsert points) = true ->
  exists w',
    VectorStoreService.store_embeddings env texts metadata w = (Ok [], w')
    /\ collection w' = collection w.

(** "Destroyed and fully replaced": after the run the rows of the
    document are the rows of the new chunks, numbered from 0 on. *)
Definition rows_replaced (env : Env) (path stem content : string) (w : World)
    : Prop :=
  let w' := snd (process_document env path stem content w) in
  forall d,
    List.find (DocumentService.has_path path) (documents w) = Some d ->
    map (fun row => (chunk_index row, World.content row))
        (filter (fun row => document_id row = doc_id d) (document_chunks w'))
    = map (fun '(i, chunk) => (Z.of_nat i, chunk))
          (enumerate (TextProcessor.chunk_text content 1000 100)).

(** "For any Document with [is_processed = true], the set of
    [vector_id]s matches the live entries tagged with its path." *)
Definition index_matches_rows (w : World) : Prop :=
  forall d,
    In d (documents w) -> is_processed d = true ->
    forall id : uuid,
      In (Some id)
         (map vector_id
              (filter (fun row => document_id row = doc_id d) (document_chunks w)))
      <-> In id (map point_id
                     (filter (fun p => Qdrant.has_source_path (source_path d) p = true)
                             (collection w))).

Definition reingestion_replaces (env : Env) (path stem content : string)
    (w : World) : Prop :=
  rows_replaced env path stem content w
  /\ index_matches_rows (snd (process_document env path stem content w)).

End StatedServices.

(** ** A concrete environment and concrete worlds *)

Module Demo.
Import World.

(** Stand-ins for the outside: the digest is the content itself, the
    embedding of a text is its length, the similarity is the negated
    distance; [faults] chooses the calls that raise. *)
Definition env (faults : Call -> bool) : Env :=
  mkEnv (fun content => content)
        (fun text => [Z.of_nat (String.length text)])
        (fun _ _ => "answer")
        (fun a b => match a, b with
                    | x :: _, y :: _ => - Z.abs (x - y)
                    | _, _ => -1000
                    end)
        faults.

Definition no_faults : Call -> bool := fun _ => false.

Definition embeddings_fail : Call -> bool :=
  fun c => match c with EmbeddingsCreate _ => true | _ => false end.

Definition upsert_fails : Call -> bool :=
  fun c => match c with QdrantUpsert _ => true | _ => false end.

Definition vector_store_fails : Call -> bool :=
  fun c => match c with
           | QdrantUpsert _ | QdrantSearch _ _ | QdrantScroll _ _
           | QdrantDelete _ => true
           | _ => false
           end.

(** The text [a\n\n\nb]: two paragraphs, three newlines between them. *)
Definition two_paragraphs : string :=
  "a" +:+ String Py.newline (String Py.newline (String Py.newline "b")).

Definition empty_world : World := mkWorld [] [] [] 0 [].

(** Five stored points whose texts have the lengths 1 to 5. *)
Definition five_points : World :=
  mkWorld [] []
    (imap (fun i text => mkPoint i [Z.of_nat (String.length text)]
                                 {[ "text" := VStr text ]})
          ["a"; "bb"; "ccc"; "dddd"; "eeeee"])
    5%nat [].

(** The world after a first ingestion of [docs/a.md]. *)
Definition ingested_once : World :=
  snd (Ingest.process_document (env no_faults) "docs/a.md" "a"
         "Hello world. Bye." empty_world).

End Demo.

(** ** Invariants of the word pass *)

Module WordPassInv.
Import Py Aux.
(** The invariant of the word loop, for any overlap: the closed
    sub-chunks are joins of windows, every window is a non-empty list of
    words, and each word read so far is in some window. *)
Definition window_inv (read : list string) (st : TextProcessor.split_state) : Prop :=
  let '(chunks, current, _) := st in
  exists closed,
    chunks = map (join " ") closed
    /\ Forall (fun window => window <> [] /\ Forall is_word window)
              (windows_of closed current)
    /\ (forall w, In w read -> exists window,
           In window (windows_of closed current) /\ In w window).

(** The same without overlap: the windows are the words read so far, cut
    into consecutive pieces, and [current_size] is the length of the
    running sub-chunk or that length plus one. *)
Definition partition_inv (chunk_size : Z) (read : list string)
    (st : TextProcessor.split_state) : Prop :=
  let '(chunks, current, size) := st in
  exists closed,
    chunks = map (join " ") closed
    /\ concat (windows_of closed current) = read
    /\ Forall (Forall is_word) (windows_of closed current)
    /\ Forall (fun window => len (join " " window) <= chunk_size + 1
                             \/ length window = 1%nat)
              (windows_of closed current)
    /\ (current = [] -> closed = [] /\ size = 0)
    /\ (current <> [] ->
        size = len (join " " current) \/ size = len (join " " current) + 1).
End WordPassInv.

(** ** The shape of a heading line *)

Module HeadingShape.
Import Py.

(** [k] characters [#]. *)
Fixpoint hashes (k : nat) : string :=
  match k with
  | O => EmptyString
  | S k' => String "#"%char (hashes k')
  end.

(** A markdown heading line of level [k]: [k] characters [#], one
    whitespace character, and at least one more character. *)
Definition heading_line (k : nat) (c : ascii) (rest : string) : string :=
  hashes k +:+ String c rest.

(** A line holds no newline. *)
Definition no_newline (s : string) : Prop :=
  Forall (fun c => is_newline c = false) (list_ascii_of_string s).

(** The entry that one numbered line contributes, if any. *)
Definition heading_of (entry : nat * string) : option Headings.Heading :=
  match Headings.re_match_heading entry.2 with
  | Some (n, g) =>
      Some (Headings.mkHeading (Z.of_nat n) (strip g) (Z.of_nat entry.1))
  | None => None
  end.

End HeadingShape.

(** * Properties *)

(** ** Strings, words and joins *)

Module StrFacts.
Import Py TextProcessor Stated Aux.

Lemma append_cons c s t : String c s +:+ t = String c (s +:+ t).
Proof. reflexivity. Qed.

Lemma append_empty_l t : "" +:+ t = t.
Proof. reflexivity. Qed.

Lemma len_append a b : len (a +:+ b) = len a + len b.
Proof.
  unfold len. induction a as [|c a IH]; [reflexivity|].
  rewrite append_cons. cbn [String.length]. lia.
Qed.

Lemma len_nonneg s : 0 <= len s.
Proof. unfold len. lia. Qed.

Lemma join_cons_cons sep p q ps :
  join sep (p :: q :: ps) = p +:+ sep +:+ join sep (q :: ps).
Proof. reflexivity. Qed.

Lemma join_snoc ws w :
  ws <> [] -> join " " (ws ++ [w]) = join " " ws +:+ " " +:+ w.
Proof.
  induction ws as [|p ws IH]; [congruence|]. intros _.
  destruct ws as [|q ws]; [reflexivity|].
  change ((p :: q :: ws) ++ [w]) with (p :: q :: (ws ++ [w])).
  rewrite !join_cons_cons.
  change (q :: ws ++ [w]) with ((q :: ws) ++ [w]). rewrite IH by congruence.
  generalize (join " " (q :: ws)). intros j. clear.
  induction p as [|c p IH]; [reflexivity|]. rewrite !append_cons. f_equal. exact IH.
Qed.

(** *** [split] *)

Lemma split_go_no_space w : no_space w = true -> split_go w = (w, []).
Proof.
  induction w as [|c w IH]; [reflexivity|]. cbn [no_space split_go].
  intros H. apply andb_true_iff in H as [Hc Hw]. rewrite IH by assumption.
  apply negb_true_iff in Hc. now rewrite Hc.
Qed.

Lemma split_word w : is_word w -> split w = [w].
Proof.
  intros [Ht Hn]. unfold split. rewrite split_go_no_space by assumption.
  now rewrite Ht.
Qed.

Lemma split_go_app_space a b :
  split_go (a +:+ " " +:+ b) = (fst (split_go a), snd (split_go a) ++ split b).
Proof.
  induction a as [|c a IH].
  - rewrite append_empty_l. change (" " +:+ b) with (String " "%char b).
    cbn [split_go]. unfold split. destruct (split_go b) as [w ws]. reflexivity.
  - rewrite append_cons. cbn [split_go]. rewrite IH.
    destruct (split_go a) as [w ws]. cbn [fst snd].
    destruct (isspace c); [|reflexivity]. destruct (truthy w); reflexivity.
Qed.

Lemma split_app_space a b : split (a +:+ " " +:+ b) = split a ++ split b.
Proof.
  unfold split at 1 2. rewrite split_go_app_space.
  destruct (split_go a) as [w ws]. cbn [fst snd]. destruct (truthy w); reflexivity.
Qed.

Lemma split_join ws : Forall is_word ws -> split (join " " ws) = ws.
Proof.
  induction 1 as [|w ws Hw Hws IH]; [reflexivity|].
  destruct ws as [|q ws]; [now apply split_word|].
  rewrite join_cons_cons, split_app_space, IH, split_word by assumption.
  reflexivity.
Qed.

Lemma split_go_words s :
  no_space (fst (split_go s)) = true /\ Forall is_word (snd (split_go s)).
Proof.
  induction s as [|c s [IH1 IH2]]; [split; [reflexivity|constructor]|].
  cbn [split_go]. destruct (split_go s) as [w ws]. cbn [fst snd] in *.
  destruct (isspace c) eqn:Hc; cbn [fst snd].
  - split; [reflexivity|]. destruct (truthy w) eqn:Hw; [|assumption].
    constructor; [split|]; assumption.
  - split; [|assumption]. cbn [no_space]. now rewrite Hc.
Qed.

Lemma split_words s : Forall is_word (split s).
Proof.
  unfold split. pose proof (split_go_words s) as [H1 H2].
  destruct (split_go s) as [w ws]. cbn [fst snd] in *.
  destruct (truthy w) eqn:Hw; [|assumption]. constructor; [split|]; assumption.
Qed.

Lemma split_lstrip s : split (lstrip s) = split s.
Proof.
  induction s as [|c s IH]; [reflexivity|]. cbn [lstrip].
  destruct (isspace c) eqn:Hc; [|reflexivity]. rewrite IH.
  unfold split. cbn [split_go]. destruct (split_go s) as [w ws]. rewrite Hc.
  cbn [truthy]. reflexivity.
Qed.

Lemma split_go_rstrip s : split_go (rstrip s) = split_go s.
Proof.
  induction s as [|c s IH]; [reflexivity|]. cbn [rstrip].
  destruct (rstrip s) as [|c' r] eqn:Hr.
  - cbn [split_go]. rewrite <- IH. cbn [split_go].
    destruct (isspace c) eqn:Hc; cbn [split_go]; rewrite ?Hc; reflexivity.
  - cbn [split_go] in *. now rewrite IH.
Qed.

Lemma split_strip s : split (strip s) = split s.
Proof.
  unfold strip. unfold split at 1. rewrite split_go_rstrip.
  apply split_lstrip.
Qed.

(** *** Lengths of joined words *)

Lemma len_join_snoc ws w :
  ws <> [] -> len (join " " (ws ++ [w])) = len (join " " ws) + 1 + len w.
Proof.
  intros H. rewrite join_snoc, !len_append by assumption.
  change (len " ") with 1. lia.
Qed.

End StrFacts.

(** ** [TextProcessor]: cleaning and whitespace-only input *)

Module CleanFacts.
Import Py TextProcessor Stated Aux StrFacts.

Lemma newline_isspace : isspace newline = true.
Proof. reflexivity. Qed.

Lemma is_newline_isspace c : is_newline c = true -> isspace c = true.
Proof.
  unfold is_newline. intros H. apply Ascii.eqb_eq in H. subst c. reflexivity.
Qed.

Lemma is_newline_spec c : is_newline c = true <-> c = newline.
Proof. unfold is_newline. apply Ascii.eqb_eq. Qed.

(** After [re_sub_spaces] the only whitespace character left is the
    space the runs were replaced with. *)
Lemma re_sub_spaces_go_chars s b c :
  In c (chars (re_sub_spaces_go s b)) -> isspace c = true -> c = " "%char.
Proof.
  revert b. induction s as [|a s IH]; intros b; simpl; [tauto|].
  destruct (isspace a) eqn:Ha.
  - destruct b; simpl; [apply IH|]. intros [<-|Hin]; [reflexivity|]. eauto.
  - simpl. intros [<-|Hin] Hc; [congruence|]. eauto.
Qed.

Lemma re_sub_blank_lines_go_id s :
  ~ In newline (chars s) -> re_sub_blank_lines_go s false = s.
Proof.
  induction s as [|a s IH]; simpl; [reflexivity|]. intros Hn.
  destruct (is_newline a) eqn:Ha.
  - apply is_newline_spec in Ha. tauto.
  - simpl. f_equal. apply IH. tauto.
Qed.

Lemma lstrip_chars s c : In c (chars (lstrip s)) -> In c (chars s).
Proof.
  induction s as [|a s IH]; simpl; [tauto|].
  destruct (isspace a); simpl; tauto.
Qed.

Lemma rstrip_chars s c : In c (chars (rstrip s)) -> In c (chars s).
Proof.
  induction s as [|a s IH]; simpl; [tauto|].
  destruct (rstrip s) eqn:Hr.
  - destruct (isspace a); simpl; tauto.
  - simpl in *. tauto.
Qed.

Lemma strip_chars s c : In c (chars (strip s)) -> In c (chars s).
Proof. unfold strip. intros H. apply lstrip_chars, rstrip_chars, H. Qed.

Lemma re_sub_spaces_no_newline text : ~ In newline (chars (re_sub_spaces text)).
Proof.
  intros H. apply re_sub_spaces_go_chars in H; [discriminate|reflexivity].
Qed.

(** C9 (what the code does where the claim fails).  For every text,
    [clean_text] is [strip] after the replacement of whitespace runs by
    one space: the second substitution finds nothing to replace, and the
    result holds no newline at all, so no blank line and no paragraph
    break survives. *)
Theorem clean_text_drops_every_newline (text : string) :
  clean_text text = strip (re_sub_spaces text)
  /\ ~ In newline (chars (clean_text text)).
Proof.
  unfold clean_text. unfold re_sub_blank_lines.
  rewrite re_sub_blank_lines_go_id by apply re_sub_spaces_no_newline.
  split; [reflexivity|].
  intros H. apply strip_chars in H. revert H. apply re_sub_spaces_no_newline.
Qed.

Lemma clean_text_joins_paragraphs :
  clean_text Demo.two_paragraphs = "a b".
Proof. reflexivity. Qed.

Lemma isspace_not_sentence_end c : isspace c = true -> is_sentence_end c = false.
Proof.
  intros Hs. unfold is_sentence_end.
  destruct (Ascii.eqb_spec c "."%char) as [->|_]; [discriminate|].
  destruct (Ascii.eqb_spec c "!"%char) as [->|_]; [discriminate|].
  destruct (Ascii.eqb_spec c "?"%char) as [->|_]; [discriminate|].
  reflexivity.
Qed.

Lemma append_empty_r s : s +:+ "" = s.
Proof. induction s as [|c s IH]; [reflexivity|]. rewrite append_cons. congruence. Qed.

Lemma string_of_list_ascii_app_chars l s :
  string_of_list_ascii (l ++ chars s) = string_of_list_ascii l +:+ s.
Proof.
  unfold chars. induction l as [|a l IH]; simpl.
  - rewrite append_empty_l. apply string_of_list_ascii_of_string.
  - rewrite append_cons. now rewrite IH.
Qed.

Lemma re_split_whitespace_only s cur :
  whitespace_only s = true ->
  re_split_sentences_go s cur false false
  = [string_of_list_ascii (rev cur) +:+ s].
Proof.
  revert cur. induction s as [|c s IH]; intros cur; simpl.
  - intros _. now rewrite append_empty_r.
  - intros H. apply andb_true_iff in H as [Hc Hs].
    rewrite (isspace_not_sentence_end c Hc). rewrite IH by assumption.
    f_equal. simpl. rewrite <- !string_of_list_ascii_app_chars. simpl.
    rewrite <- app_assoc. reflexivity.
Qed.

Lemma lstrip_whitespace_only s : whitespace_only s = true -> lstrip s = "".
Proof.
  induction s as [|c s IH]; simpl; [reflexivity|].
  intros H. apply andb_true_iff in H as [-> Hs]. auto.
Qed.

Lemma strip_whitespace_only s : whitespace_only s = true -> strip s = "".
Proof. intros H. unfold strip. now rewrite lstrip_whitespace_only. Qed.

(** C8 (with the case where the code departs from it).  For a text made
    of whitespace only and [chunk_size >= 0], [chunk_text] returns the
    empty sequence when the text is empty, and the one-element sequence
    holding the empty string otherwise. *)
Theorem chunk_text_of_whitespace (text : string) (chunk_size overlap : Z) :
  0 <= chunk_size ->
  whitespace_only text = true ->
  chunk_text text chunk_size overlap = if truthy text then [""] else [].
Proof.
  intros Hcs Hws. unfold chunk_text, sentence_chunks, re_split_sentences.
  rewrite re_split_whitespace_only by assumption.
  change (string_of_list_ascii (rev [])) with "". rewrite append_empty_l.
  cbn [fold_left chunk_step truthy].
  assert (Hstrip : strip text = "") by now apply strip_whitespace_only.
  assert (H0 : (len "" >? chunk_size) = false).
  { rewrite Z.gtb_ltb. apply Z.ltb_ge. unfold len. simpl. lia. }
  destruct (Z.gtb_spec (len "" + len text) chunk_size) as [E|E].
  - cbn [truthy app]. rewrite Hstrip. cbn [fold_left]. rewrite H0.
    destruct text; [|reflexivity].
    exfalso. unfold len in E. simpl in E. lia.
  - destruct text as [|c text]; cbn [truthy]; [reflexivity|].
    rewrite Hstrip. cbn [fold_left app]. now rewrite H0.
Qed.

Lemma chunk_text_of_whitespace_witness :
  chunk_text " " 1000 100 = [""].
Proof. apply (chunk_text_of_whitespace " " 1000 100); [lia|reflexivity]. Defined.

End CleanFacts.

(** ** [TextProcessor]: the size of the chunks *)

Module ChunkFacts.
Import Py TextProcessor Stated Aux StrFacts.



Lemma post_pass_concat chunk_size overlap l init :
  fold_left
    (fun final_chunks chunk =>
       if len chunk >? chunk_size
       then final_chunks ++ _split_large_chunk chunk chunk_size overlap
       else final_chunks ++ [chunk])
    l init
  = init ++ concat (map (resplit chunk_size overlap) l).
Proof.
  revert init. induction l as [|c l IH]; intros init.
  - simpl. now rewrite app_nil_r.
  - cbn [fold_left map concat]. rewrite app_assoc, <- IH. f_equal.
    unfold resplit. destruct (len c >? chunk_size); reflexivity.
Qed.

Lemma chunk_text_concat text chunk_size overlap :
  chunk_text text chunk_size overlap
  = concat (map (resplit chunk_size overlap)
                (sentence_chunks text chunk_size overlap)).
Proof. unfold chunk_text. now rewrite post_pass_concat. Qed.

(** *** The first window of the word pass *)

Section FirstWindow.
Variables (chunk_size overlap : Z) (w0 : string).

Lemma split_step_first_inv st word :
  first_inv chunk_size w0 st -> first_inv chunk_size w0 (split_step chunk_size overlap st word).
Proof.
  destruct st as [[chunks current] size]. intros [Hne Hinv].
  unfold split_step.
  assert (Hlen : Nat.eqb (length current) 0 = false).
  { destruct current; [congruence|reflexivity]. }
  rewrite Hlen, andb_true_r.
  destruct (Z.gtb_spec (size + len word) chunk_size) as [Hgt|Hle].
  - assert (Hfirst : match chunks ++ [join " " current] with
                     | first :: _ => fits chunk_size w0 first
                     | [] => False
                     end).
    { destruct chunks as [|first chunks]; simpl; tauto. }
    destruct (overlap >? 0); cbn [Aux.first_inv].
    + split; [destruct (if _ : bool then _ else _); discriminate|].
      destruct (chunks ++ [join " " current]); tauto.
    + split; [discriminate|]. destruct (chunks ++ [join " " current]); tauto.
  - cbn [Aux.first_inv]. split; [destruct current; discriminate|].
    destruct chunks as [|first chunks]; [|assumption].
    destruct Hinv as [Hsize _]. unfold Aux.fits.
    rewrite len_join_snoc by assumption. split; [lia|]. left. lia.
Qed.

Lemma fold_split_step_first_inv words st :
  first_inv chunk_size w0 st -> first_inv chunk_size w0 (fold_left (split_step chunk_size overlap) words st).
Proof.
  revert st. induction words as [|w words IH]; intros st H; [exact H|].
  simpl. apply IH, split_step_first_inv, H.
Qed.

End FirstWindow.

Lemma split_large_chunk_first chunk chunk_size overlap first rest :
  _split_large_chunk chunk chunk_size overlap = first :: rest ->
  len first <= chunk_size \/ exists ws, split chunk = first :: ws.
Proof.
  unfold _split_large_chunk. destruct (split chunk) as [|w0 ws] eqn:Hw.
  - simpl. discriminate.
  - cbn [fold_left]. 
    assert (H0 : first_inv chunk_size w0 (split_step chunk_size overlap ([], [], 0) w0)).
    { unfold split_step. cbn [length Nat.eqb negb]. rewrite andb_false_r.
      cbn [Aux.first_inv app]. split; [discriminate|]. split; [simpl; lia|].
      right. reflexivity. }
    apply (fold_split_step_first_inv chunk_size overlap w0 ws) in H0.
    destruct (fold_left _ ws _) as [[chunks current] size].
    destruct H0 as [Hne H]. destruct current as [|c current]; [congruence|].
    remember (join " " (c :: current)) as j eqn:Hj. clear Hj.
    destruct chunks as [|f chunks]; cbn [app]; intros [= <- _].
    + destruct H as [_ [H| ->]]; [left; exact H|right; eauto].
    + destruct H as [H| ->]; [left; exact H|right; eauto].
Qed.

(** C3 (amended).  Every chunk emitted by [chunk_text] has length at
    most [chunk_size], unless it is a window of the word-level re-split
    of a sentence-pass chunk longer than [chunk_size]; and the first
    window of a re-split has length at most [chunk_size] or is the first
    word alone, emitted unchanged. *)
Theorem chunk_bound_outside_resplit (text : string) (chunk_size overlap : Z) :
  Forall (fun c =>
            len c <= chunk_size
            \/ exists chunk,
                 In chunk (sentence_chunks text chunk_size overlap)
                 /\ chunk_size < len chunk
                 /\ In c (_split_large_chunk chunk chunk_size overlap))
         (chunk_text text chunk_size overlap)
  /\ forall chunk first rest,
       _split_large_chunk chunk chunk_size overlap = first :: rest ->
       len first <= chunk_size \/ exists ws, split chunk = first :: ws.
Proof.
  split; [|intros chunk first rest; apply split_large_chunk_first].
  rewrite chunk_text_concat. apply List.Forall_forall. intros c Hc.
  apply in_concat in Hc as [l [Hl Hc]].
  apply in_map_iff in Hl as [chunk [<- Hchunk]].
  unfold resplit in Hc.
  destruct (Z.gtb_spec (len chunk) chunk_size) as [Hgt|Hle].
  - right. exists chunk. auto.
  - destruct Hc as [<-|[]]. left. exact Hle.
Qed.

Lemma chunk_bound_fails : ~ chunk_bound "aaaa. bbbb." 10 1.
Proof.
  unfold chunk_bound. intros H.
  assert (Hc : chunk_text "aaaa. bbbb." 10 1 = ["aaaa."; "aaaa. bbbb."])
    by reflexivity.
  rewrite Hc in H. apply Forall_cons in H as [_ H]. apply Forall_cons in H as [H _].
  destruct H as [H|[_ [H|H]]].
  - vm_compute in H. apply H. reflexivity.
  - vm_compute in H. intuition discriminate.
  - vm_compute in H. intuition discriminate.
Qed.

Lemma chunk_bound_outside_resplit_witness :
  len "aaaaaaaaa" <= 10
  \/ exists ws, split "aaaaaaaaa bbbbb ccccc" = "aaaaaaaaa" :: ws.
Proof.
  apply (proj2 (chunk_bound_outside_resplit "aaaaaaaaa bbbbb ccccc" 10 0)
           "aaaaaaaaa bbbbb ccccc" "aaaaaaaaa" ["bbbbb ccccc"]).
  reflexivity.
Defined.

(** Without overlap too a later window of the word pass can pass
    [chunk_size]: after a window is closed [current_size] restarts at the
    length of the word, without the 1 the other branch adds for the
    space. *)
Lemma later_window_exceeds_without_overlap :
  chunk_text "aaaaaaaaa bbbbb ccccc" 10 0 = ["aaaaaaaaa"; "bbbbb ccccc"]
  /\ len "bbbbb ccccc" = 11.
Proof. split; reflexivity. Qed.

End ChunkFacts.

(** ** [TextProcessor]: the overlap between chunks *)

Module OverlapFacts.
Import Py TextProcessor Stated Aux StrFacts.



Lemma adjacent_nil {A} (R : A -> A -> Prop) : adjacent R [].
Proof. intros i a b H. rewrite lookup_nil in H. discriminate. Qed.

Lemma adjacent_singleton {A} (R : A -> A -> Prop) x : adjacent R [x].
Proof. intros i a b _ H. destruct i; discriminate. Qed.

Lemma adjacent_snoc {A} (R : A -> A -> Prop) l x y :
  adjacent R (l ++ [x]) -> R x y -> adjacent R ((l ++ [x]) ++ [y]).
Proof.
  intros Hadj HR i a b Ha Hb.
  destruct (decide (S i < length (l ++ [x]))%nat) as [Hlt|Hge].
  - rewrite lookup_app_l in Ha by lia. rewrite lookup_app_l in Hb by lia.
    eapply Hadj; eassumption.
  - assert (Hi : S i = length (l ++ [x])).
    { apply lookup_lt_Some in Hb. rewrite length_app in Hb. simpl in Hb. lia. }
    rewrite lookup_app_r in Hb by lia. rewrite Hi, Nat.sub_diag in Hb.
    injection Hb as <-.
    rewrite lookup_app_l in Ha by lia. rewrite length_app in Hi. simpl in Hi.
    rewrite lookup_app_r in Ha by lia.
    replace (i - length l)%nat with 0%nat in Ha by lia. injection Ha as <-.
    exact HR.
Qed.

Lemma adjacent_replace_last {A} (R : A -> A -> Prop) l x x' :
  adjacent R (l ++ [x]) -> (forall a, R a x -> R a x') -> adjacent R (l ++ [x']).
Proof.
  intros Hadj HR i a b Ha Hb.
  assert (Hlen : (S i < length (l ++ [x']))%nat) by (eapply lookup_lt_Some; eassumption).
  rewrite length_app in Hlen. simpl in Hlen.
  rewrite lookup_app_l in Ha by lia.
  destruct (decide (S i < length l)%nat) as [Hlt|Hge].
  - rewrite lookup_app_l in Hb by lia. apply (Hadj i a b).
    + now rewrite lookup_app_l by lia.
    + now rewrite lookup_app_l by lia.
  - rewrite lookup_app_r in Hb by lia.
    replace (S i - length l)%nat with 0%nat in Hb by lia. injection Hb as <-.
    apply HR. apply (Hadj i a x).
    + now rewrite lookup_app_l by lia.
    + rewrite lookup_app_r by lia. now replace (S i - length l)%nat with 0%nat by lia.
Qed.

Section WordPass.
Variables (chunk_size : Z) (n : nat).
Hypothesis n_pos : (0 < n)%nat.

Lemma overlap_words n_words (current : list string) :
  n_words = Z.of_nat n ->
  (if Z.of_nat (length current) >=? n_words
   then slice_from (- n_words) current
   else current) = seed n current.
Proof.
  intros ->. unfold seed, slice_from.
  destruct (Z.geb_spec (Z.of_nat (length current)) (Z.of_nat n)) as [H|H].
  - destruct (Z.leb_spec 0 (- Z.of_nat n)) as [H'|H']; [lia|].
    f_equal. lia.
  - replace (length current - n)%nat with 0%nat by lia. reflexivity.
Qed.

Lemma Forall_seed (P : string -> Prop) k l : Forall P l -> Forall P (seed k l).
Proof. unfold seed. apply Forall_drop. Qed.

Lemma split_step_overlap_inv st word :
  is_word word -> overlap_inv n st ->
  overlap_inv n (split_step chunk_size (Z.of_nat n) st word).
Proof.
  destruct st as [[chunks current] size]. intros Hw (closed & -> & Hwf & Hadj & Hnil).
  unfold split_step.
  destruct current as [|c current].
  - (* the first word *)
    rewrite (Hnil eq_refl) in *. cbn [length Nat.eqb negb]. rewrite andb_false_r.
    cbn [app Aux.overlap_inv]. exists []. cbn [windows_of app map].
    split; [reflexivity|]. split; [|split; [|discriminate]].
    + apply Forall_singleton. now apply Forall_singleton.
    + apply adjacent_singleton.
  - cbn [windows_of] in Hwf, Hadj.
    assert (Hcur : Forall is_word (c :: current)).
    { apply Forall_app in Hwf as [_ Hwf]. now apply Forall_inv in Hwf. }
    change (negb (Nat.eqb (length (c :: current)) 0)) with true.
    rewrite andb_true_r.
    destruct (size + len word >? chunk_size).
    + (* the running window is closed and hands its last words on *)
      destruct (Z.gtb_spec (Z.of_nat n) 0) as [_|Hn]; [|lia].
      rewrite (overlap_words (Z.of_nat n)) by reflexivity.
      cbn [Aux.overlap_inv]. exists (closed ++ [c :: current]). 
      assert (Hne : seed n (c :: current) ++ [word] <> []).
      { destruct (seed n (c :: current)); discriminate. }
      assert (Hwin : windows_of (closed ++ [c :: current])
                       (seed n (c :: current) ++ [word])
                     = (closed ++ [c :: current]) ++ [seed n (c :: current) ++ [word]]).
      { unfold windows_of. destruct (seed n (c :: current) ++ [word]); congruence. }
      rewrite Hwin. split; [|split; [|split]].
      * rewrite map_app. reflexivity.
      * apply Forall_app. split; [assumption|]. constructor; [|constructor].
        apply Forall_app. split; [now apply Forall_seed|]. now apply Forall_singleton.
      * apply adjacent_snoc; [assumption|]. unfold Aux.seeds. now apply prefix_app_r.
      * intros H. congruence.
    + (* the word joins the running window *)
      cbn [Aux.overlap_inv]. exists closed.
      change (windows_of closed ((c :: current) ++ [word]))
        with (closed ++ [(c :: current) ++ [word]]).
      split; [reflexivity|]. split; [|split].
      * apply Forall_app in Hwf as [Hwf _]. apply Forall_app. split; [assumption|].
        constructor; [|constructor]. apply Forall_app. split; [assumption|].
        now apply Forall_singleton.
      * eapply adjacent_replace_last; [exact Hadj|].
        intros a Ha. unfold Aux.seeds in *. now apply prefix_app_r.
      * discriminate.
Qed.

Lemma fold_split_step_overlap_inv words st :
  Forall is_word words -> overlap_inv n st ->
  overlap_inv n (fold_left (split_step chunk_size (Z.of_nat n)) words st).
Proof.
  revert st. induction words as [|w words IH]; intros st Hw H; [exact H|].
  simpl. apply Forall_cons in Hw as [Hw Hws].
  apply IH; [assumption|]. now apply split_step_overlap_inv.
Qed.

Lemma split_large_chunk_windows chunk :
  exists windows,
    _split_large_chunk chunk chunk_size (Z.of_nat n) = map (join " ") windows
    /\ Forall (Forall is_word) windows
    /\ adjacent (seeds n) windows.
Proof.
  unfold _split_large_chunk.
  assert (H0 : overlap_inv n ([], [], 0)).
  { exists []. cbn [windows_of map]. split; [reflexivity|].
    split; [constructor|]. split; [apply adjacent_nil|reflexivity]. }
  apply (fold_split_step_overlap_inv (split chunk)) in H0; [|apply split_words].
  destruct (fold_left _ _ _) as [[chunks current] size].
  destruct H0 as (closed & -> & Hwf & Hadj & Hnil).
  exists (windows_of closed current). split; [|split; assumption].
  destruct current; cbn [windows_of]; [reflexivity|]. now rewrite map_app.
Qed.

Lemma seeds_overlap_between a b :
  Forall is_word a -> Forall is_word b -> (seeds n) a b ->
  overlap_between n (join " " a) (join " " b).
Proof.
  intros Ha Hb [rest Hrest]. unfold overlap_between.
  rewrite !split_join by assumption. intros Hn.
  rewrite Hrest. unfold seed. rewrite take_app_length'; [reflexivity|].
  rewrite length_drop. lia.
Qed.

Lemma split_large_chunk_overlap chunk i window next_window :
  _split_large_chunk chunk chunk_size (Z.of_nat n) !! i = Some window ->
  _split_large_chunk chunk chunk_size (Z.of_nat n) !! S i = Some next_window ->
  overlap_between n window next_window.
Proof.
  destruct (split_large_chunk_windows chunk) as (windows & -> & Hwf & Hadj).
  rewrite !list_lookup_fmap. intros Ha Hb.
  destruct (windows !! i) as [a|] eqn:Ea; [|discriminate].
  destruct (windows !! S i) as [b|] eqn:Eb; [|discriminate].
  injection Ha as <-. injection Hb as <-.
  apply seeds_overlap_between.
  - eapply Forall_lookup_1; eassumption.
  - eapply Forall_lookup_1; eassumption.
  - eapply Hadj; eassumption.
Qed.

(** The sentence loop closing a running chunk that is not empty. *)
Lemma chunk_step_overlap chunks current sentence :
  truthy current = true ->
  chunk_size < len current + len sentence ->
  exists next_chunk,
    chunk_step chunk_size (Z.of_nat n) (chunks, current) sentence
    = (chunks ++ [strip current], next_chunk)
    /\ split next_chunk = seed n (split (strip current)) ++ split sentence
    /\ overlap_between n (strip current) next_chunk.
Proof.
  intros Ht Hgt. unfold chunk_step. rewrite Ht.
  destruct (Z.gtb_spec (len current + len sentence) chunk_size) as [_|H]; [|lia].
  destruct (Z.gtb_spec (Z.of_nat n) 0) as [_|H]; [|lia].
  eexists. split; [reflexivity|].
  assert (Hseed : slice_from (- Z.min (Z.of_nat (length (split current))) (Z.of_nat n))
                    (split current) = seed n (split current)).
  { unfold slice_from, seed.
    destruct (Z.leb_spec 0 (- Z.min (Z.of_nat (length (split current))) (Z.of_nat n)))
      as [H|H].
    - replace (Z.to_nat _) with 0%nat by lia.
      replace (length (split current) - n)%nat with 0%nat by lia. reflexivity.
    - f_equal. lia. }
  rewrite Hseed, split_strip.
  assert (Hsplit : split (join " " (seed n (split current)) +:+ " " +:+ sentence)
                   = seed n (split current) ++ split sentence).
  { rewrite split_app_space, split_join; [reflexivity|].
    apply Forall_seed, split_words. }
  split; [exact Hsplit|].
  unfold overlap_between. rewrite Hsplit, split_strip. intros Hn.
  unfold seed. rewrite take_app_length'; [reflexivity|]. rewrite length_drop. lia.
Qed.

End WordPass.

Section SentencePass.
Variables (chunk_size : Z) (n : nat) (sentences : list string).
Hypothesis n_pos : (0 < n)%nat.

Lemma adjacent_snoc_last {A} (R : A -> A -> Prop) l x :
  adjacent R l -> (forall y, last l = Some y -> R y x) -> adjacent R (l ++ [x]).
Proof.
  destruct l as [|y l _] using rev_ind; intros Hadj Hlast.
  - apply adjacent_singleton.
  - apply adjacent_snoc; [exact Hadj|]. apply Hlast. apply last_snoc.
Qed.

Lemma seeds_nil_l (b : list string) : seeds n [] b.
Proof. unfold seeds, seed. cbn. apply prefix_nil. Qed.

Lemma seeds_of_nil (a b : list string) : seeds n a [] -> seeds n a b.
Proof.
  unfold seeds. intros H. apply prefix_nil_inv in H. rewrite H. apply prefix_nil.
Qed.

Lemma seeds_app (a b c : list string) : seeds n a b -> seeds n a (b ++ c).
Proof. unfold seeds. intros H. now apply prefix_app_r. Qed.

Lemma seeds_take (a b : list string) :
  seeds n a b -> (n <= length a)%nat -> take n b = drop (length a - n) a.
Proof.
  unfold seeds, seed. intros [k ->] Hn.
  rewrite take_app_length'; [reflexivity|]. rewrite length_drop. lia.
Qed.

Lemma truthy_false s : truthy s = false -> s = "".
Proof. now destruct s. Qed.

Lemma carries_over_strip a b :
  carries_over chunk_size n sentences a b ->
  carries_over chunk_size n sentences a (strip b).
Proof. unfold carries_over. now rewrite split_strip. Qed.

Lemma chunk_step_sentence_inv st sentence :
  In sentence sentences ->
  sentence_inv chunk_size n sentences st ->
  sentence_inv chunk_size n sentences
    (chunk_step chunk_size (Z.of_nat n) st sentence).
Proof.
  destruct st as [chunks current]. intros Hin [Hadj Hlast].
  destruct (Z.gtb_spec (len current + len sentence) chunk_size) as [Hgt|Hle].
  - destruct (truthy current) eqn:Ht.
    + destruct (chunk_step_overlap chunk_size n n_pos chunks current sentence Ht)
        as (next_chunk & -> & Hsplit & _); [lia|].
      split.
      * apply adjacent_snoc_last; [exact Hadj|].
        intros y Hy. apply carries_over_strip. now apply Hlast.
      * intros last_chunk. rewrite last_snoc. intros [= <-].
        left. unfold seeds. rewrite Hsplit. now exists (split sentence).
    + apply truthy_false in Ht. subst current.
      unfold chunk_step. cbn [truthy].
      destruct (Z.gtb_spec (len "" + len sentence) chunk_size) as [_|Hle]; [|lia].
      assert (Halone : emitted_alone chunk_size sentences (strip sentence)).
      { exists sentence. change (len "") with 0 in Hgt.
        split; [exact Hin|]. split; [lia|reflexivity]. }
      split.
      * apply adjacent_snoc_last; [exact Hadj|].
        intros y Hy. destruct (Hlast y Hy) as [Hseed|Hy_alone]; [left|now right].
        now apply seeds_of_nil.
      * intros last_chunk. rewrite last_snoc. intros [= <-]. now right.
  - unfold chunk_step.
    destruct (Z.gtb_spec (len current + len sentence) chunk_size) as [Hgt|_]; [lia|].
    split; [exact Hadj|].
    intros y Hy. destruct (Hlast y Hy) as [Hseed|Hy_alone]; [left|now right].
    destruct (truthy current) eqn:Ht.
    + rewrite split_app_space. now apply seeds_app.
    + apply truthy_false in Ht. subst current. now apply seeds_of_nil.
Qed.

Lemma fold_chunk_step_sentence_inv rest st :
  (forall sentence, In sentence rest -> In sentence sentences) ->
  sentence_inv chunk_size n sentences st ->
  sentence_inv chunk_size n sentences
    (fold_left (chunk_step chunk_size (Z.of_nat n)) rest st).
Proof.
  revert st. induction rest as [|sentence rest IH]; intros st Hin Hinv; [exact Hinv|].
  cbn [fold_left]. apply IH.
  - intros s Hs. apply Hin. now right.
  - apply chunk_step_sentence_inv; [|exact Hinv]. apply Hin. now left.
Qed.

End SentencePass.

(** Neighbouring chunks of the sentence pass. *)
Lemma sentence_chunks_carry_over text chunk_size n :
  (0 < n)%nat ->
  adjacent (carries_over chunk_size n (re_split_sentences text))
           (sentence_chunks text chunk_size (Z.of_nat n)).
Proof.
  intros Hn. unfold sentence_chunks.
  pose proof (fold_chunk_step_sentence_inv chunk_size n (re_split_sentences text) Hn
                (re_split_sentences text) ([], "")) as Hinv.
  destruct (fold_left _ _ _) as [chunks current].
  destruct Hinv as [Hadj Hlast]; [auto| |].
  { split; [apply adjacent_nil|]. intros y [=]. }
  destruct (truthy current); [|exact Hadj].
  apply adjacent_snoc_last; [exact Hadj|].
  intros y Hy. apply carries_over_strip. now apply Hlast.
Qed.

Lemma concat_singletons {A} (l : list A) : concat (map (fun x => [x]) l) = l.
Proof. induction l as [|x l IH]; [reflexivity|]. cbn. now rewrite IH. Qed.

(** C4 (amended).  For [overlap = n > 0]: two neighbouring windows of
    [_split_large_chunk] overlap as the claim says.  Two neighbouring
    chunks of the sentence pass overlap as well, the later one starting
    with the last [n] words of the earlier one (with all its words when
    it has fewer), unless the earlier one is a sentence of the text
    longer than [chunk_size] that overflowed the empty running chunk:
    such a sentence is emitted alone and the next chunk starts without
    overlap.  When every chunk of the sentence pass is within
    [chunk_size], these chunks are what [chunk_text] returns. *)
Theorem overlap_within_each_pass (chunk_size : Z) (n : nat) :
  (0 < n)%nat ->
  (forall chunk i window next_window,
      _split_large_chunk chunk chunk_size (Z.of_nat n) !! i = Some window ->
      _split_large_chunk chunk chunk_size (Z.of_nat n) !! S i = Some next_window ->
      overlap_between n window next_window)
  /\ (forall text i chunk next_chunk,
        sentence_chunks text chunk_size (Z.of_nat n) !! i = Some chunk ->
        sentence_chunks text chunk_size (Z.of_nat n) !! S i = Some next_chunk ->
        (seeds n (split chunk) (split next_chunk)
         /\ overlap_between n chunk next_chunk)
        \/ emitted_alone chunk_size (re_split_sentences text) chunk)
  /\ (forall text,
        Forall (fun chunk => len chunk <= chunk_size)
               (sentence_chunks text chunk_size (Z.of_nat n)) ->
        chunk_text text chunk_size (Z.of_nat n)
        = sentence_chunks text chunk_size (Z.of_nat n)).
Proof.
  intros Hn. split; [|split].
  - intros chunk i window next_window. now apply split_large_chunk_overlap.
  - intros text i chunk next_chunk Hi Hsi.
    destruct (sentence_chunks_carry_over text chunk_size n Hn i chunk next_chunk Hi Hsi)
      as [Hseeds|Halone]; [left|now right].
    split; [exact Hseeds|]. intros Hlen. now apply seeds_take.
  - intros text Hfit. rewrite ChunkFacts.chunk_text_concat.
    rewrite <- (concat_singletons (sentence_chunks text chunk_size (Z.of_nat n))) at 2.
    f_equal. apply map_ext_in. intros chunk Hchunk.
    apply (proj1 (List.Forall_forall _ _) Hfit) in Hchunk.
    unfold resplit. destruct (Z.gtb_spec (len chunk) chunk_size); [lia|reflexivity].
Qed.

Lemma chunk_overlap_fails : ~ chunk_overlap "aaaaaaaa. bb." 5 1.
Proof.
  intros H. specialize (H 0%nat "aaaaaaaa." "bb." eq_refl eq_refl).
  unfold overlap_between in H. vm_compute in H.
  specialize (H (le_n 1)). discriminate.
Qed.

Lemma overlap_within_each_pass_witness :
  chunk_text "aaaa. bbbb. cccc." 11 1 = ["aaaa. bbbb."; "bbbb. cccc."]
  /\ ((seeds 1 (split "aaaa. bbbb.") (split "bbbb. cccc.")
       /\ overlap_between 1 "aaaa. bbbb." "bbbb. cccc.")
      \/ emitted_alone 11 (re_split_sentences "aaaa. bbbb. cccc.") "aaaa. bbbb.").
Proof.
  destruct (overlap_within_each_pass 11 1 (le_n 1)) as (_ & Hpass & Htext).
  split.
  - etransitivity; [apply (Htext "aaaa. bbbb. cccc.")|reflexivity].
    repeat constructor; vm_compute; discriminate.
  - apply (Hpass "aaaa. bbbb. cccc." 0%nat); reflexivity.
Defined.

End OverlapFacts.

(** ** The services, step by step *)

Module ServiceFacts.
Import World Outcome.

Section WithEnv.
Variable env : Env.

Lemma call_eq c w :
  call env c w = (if raises env c then Raise else Ok tt, add_call c w).
Proof. reflexivity. Qed.

Lemma bind_ok {A B} (m : M A) (k : A -> M B) w a w' :
  m w = (Ok a, w') -> bind m k w = k a w'.
Proof. unfold bind. now intros ->. Qed.

Lemma bind_raise {A B} (m : M A) (k : A -> M B) w w' :
  m w = (Raise, w') -> bind m k w = (Raise, w').
Proof. unfold bind. now intros ->. Qed.

Lemma map_m_pure {A B} (f : A -> M B) (g : A -> B) xs w :
  (forall x, In x xs -> f x w = (Ok (g x), w)) ->
  map_m f xs w = (Ok (map g xs), w).
Proof.
  induction xs as [|x xs IH]; intros H; [reflexivity|].
  cbn [map_m map]. erewrite bind_ok by (apply H; now left).
  erewrite bind_ok by (apply IH; intros y Hy; apply H; now right).
  reflexivity.
Qed.

Lemma in_enumerate {A} (l : list A) i x :
  In (i, x) (enumerate l) -> l !! i = Some x.
Proof.
  unfold enumerate. intros H. apply list_elem_of_In in H.
  apply elem_of_lookup_imap in H as (j & y & Heq & Hy). now injection Heq as -> ->.
Qed.

Lemma map_m_uuid4 (a n : nat) w :
  map_m (fun _ : nat => uuid4) (seq a n) w
  = (Ok (seq (next_uuid w) n), set_next_uuid (next_uuid w + n) w).
Proof.
  revert a w. induction n as [|n IH]; intros a w.
  - cbn [seq map_m]. unfold ret. f_equal. destruct w. unfold set_next_uuid. simpl.
    f_equal. lia.
  - cbn [seq map_m]. unfold bind at 1. cbn [uuid4].
    unfold bind at 1. rewrite IH. cbn [next_uuid set_next_uuid ret].
    f_equal. destruct w. unfold set_next_uuid. simpl. f_equal. lia.
Qed.

(** *** [EmbeddingService] *)

Lemma create_embeddings_eq texts w :
  EmbeddingService.create_embeddings env texts w
  = (Ok (embeddings_of env texts), add_call (EmbeddingsCreate texts) w).
Proof.
  unfold EmbeddingService.create_embeddings, try_except, bind, embeddings_of.
  rewrite call_eq. destruct (raises env (EmbeddingsCreate texts)); reflexivity.
Qed.

Lemma create_embedding_eq text w :
  EmbeddingService.create_embedding env text w
  = (Ok (query_vector_of env text), add_call (EmbeddingsCreate [text]) w).
Proof.
  unfold EmbeddingService.create_embedding, bind. rewrite create_embeddings_eq.
  reflexivity.
Qed.

(** *** [VectorStoreService] *)

Lemma build_points texts metadata (u : nat) w :
  map_m
    (fun '(i, (text, embedding)) =>
       bind (match metadata with
             | Some ((_ :: _) as md) =>
                 if (i <? length md)%nat then VectorStoreService.index md i
                 else ret ∅
             | _ => ret ∅
             end)
         (fun payload =>
            let payload := <["text" := VStr text]> payload in
            bind (VectorStoreService.index (seq u (length texts)) i)
              (fun id => ret (mkPoint id embedding payload))))
    (enumerate (zip texts (embeddings_of env texts))) w
  = (Ok (points_of env texts metadata u), w).
Proof.
  unfold points_of. apply map_m_pure. intros [i [text embedding]] Hin.
  apply in_enumerate in Hin.
  assert (Hi : (i < length texts)%nat).
  { apply lookup_lt_Some in Hin. rewrite length_zip_with in Hin. lia. }
  assert (Hpayload :
    (match metadata with
     | Some ((_ :: _) as md) =>
         if (i <? length md)%nat then VectorStoreService.index md i else ret ∅
     | _ => ret ∅
     end) w = (Ok (payload_at metadata i), w)).
  { unfold payload_at. destruct metadata as [[|m md]|]; try reflexivity.
    destruct (Nat.ltb_spec i (length (m :: md))) as [Hlt|Hge].
    - unfold VectorStoreService.index.
      destruct (lookup_lt_is_Some_2 (m :: md) i Hlt) as [x Hx]. now rewrite Hx.
    - rewrite (lookup_ge_None_2 (m :: md) i) by lia. reflexivity. }
  erewrite bind_ok by exact Hpayload.
  unfold VectorStoreService.index, point_of.
  rewrite !lookup_seq_lt by assumption. reflexivity.
Qed.

(** [store_embeddings] never raises; it returns the fresh ids unless the
    upsert raises. *)
Lemma store_embeddings_eq texts metadata w :
  let w1 := set_next_uuid (next_uuid w + length texts)
              (add_call (EmbeddingsCreate texts) w) in
  let points := points_of env texts metadata (next_uuid w) in
  let w2 := add_call (QdrantUpsert points) w1 in
  VectorStoreService.store_embeddings env texts metadata w
  = if raises env (QdrantUpsert points) then (Ok [], w2)
    else (Ok (seq (next_uuid w) (length texts)),
          set_collection (Qdrant.upsert_points points (collection w2)) w2).
Proof.
  intros w1 points w2.
  unfold VectorStoreService.store_embeddings, try_except.
  erewrite bind_ok by apply create_embeddings_eq.
  erewrite bind_ok by apply map_m_uuid4.
  erewrite bind_ok by apply build_points.
  cbn [next_uuid add_call]. fold w1. fold points.
  unfold Qdrant.upsert, bind. rewrite call_eq. fold w2.
  destruct (raises env (QdrantUpsert points)); reflexivity.
Qed.

Lemma search_similar_eq query_text limit w :
  let q := query_vector_of env query_text in
  let w' := add_call (QdrantSearch q limit)
              (add_call (EmbeddingsCreate [query_text]) w) in
  VectorStoreService.search_similar env query_text limit w
  = (Ok (if raises env (QdrantSearch q limit) then []
         else map VectorStoreService.format_result
                (take (Z.to_nat limit)
                   (Qdrant.rank (map (Qdrant.score_point env q) (collection w))))),
     w').
Proof.
  intros q w'. unfold VectorStoreService.search_similar, try_except.
  erewrite bind_ok by apply create_embedding_eq. fold q.
  unfold Qdrant.search, bind. rewrite call_eq. fold w'.
  destruct (raises env (QdrantSearch q limit)); reflexivity.
Qed.

Lemma scroll_eq path limit w :
  Qdrant.scroll env path limit w
  = (if raises env (QdrantScroll path limit) then Raise
     else Ok (let matching :=
                filter (fun p => Qdrant.has_source_path path p = true) (collection w) in
              (take (Z.to_nat limit) matching,
               point_id <$> drop (Z.to_nat limit) matching !! 0%nat)),
     add_call (QdrantScroll path limit) w).
Proof.
  unfold Qdrant.scroll, bind. rewrite call_eq.
  destruct (raises env (QdrantScroll path limit)); reflexivity.
Qed.

(** Whatever the collection holds and whatever raises,
    [delete_by_source_path] ends in its handler: unpacking the second
    item of the reply raises, if not already the first. *)
Lemma delete_by_source_path_eq source_path w :
  VectorStoreService.delete_by_source_path env source_path w
  = (Ok tt, add_call (QdrantScroll source_path 10000) w).
Proof.
  unfold VectorStoreService.delete_by_source_path, try_except.
  unfold bind at 1. rewrite scroll_eq.
  destruct (raises env (QdrantScroll source_path 10000)); [reflexivity|].
  cbn [fst snd map_m]. 
  match goal with
  | |- context [VectorStoreService.unpack_point_id (Qdrant.Records ?rs)] =>
      destruct rs as [|r1 [|r2 [|r3 records]]]
  end; reflexivity.
Qed.

End WithEnv.

End ServiceFacts.

(** ** [VectorStoreService]: errors stay inside *)

Module BoundaryFacts.
Import World Outcome ServiceFacts StatedServices.

Lemma points_of_without_embeddings (env : Env) texts metadata (u : nat) :
  raises env (EmbeddingsCreate texts) = true -> points_of env texts metadata u = [].
Proof.
  intros H. unfold points_of, embeddings_of. rewrite H. now destruct texts.
Qed.

Lemma query_vector_without_embedding (env : Env) query_text :
  raises env (EmbeddingsCreate [query_text]) = true ->
  query_vector_of env query_text = [].
Proof. intros H. unfold query_vector_of, embeddings_of. now rewrite H. Qed.

(** C6 (amended).  No operation of [VectorStoreService] raises, whatever
    the environment makes raise: [search_similar],
    [delete_by_source_path] and [store_embeddings] always return.  When
    the search call of the client raises the result list is empty; when
    the scroll or the delete call raises the collection is left as it
    was; when the upsert call raises the id list is empty and the
    collection is left as it was.  A raising embedding call is absorbed
    one level below and the operation goes on without embeddings:
    [search_similar] searches with the empty vector, and
    [store_embeddings] upserts no point, so the collection is left as it
    was, but it returns the fresh ids, one per text, unless the upsert
    of no point raises. *)
Theorem provider_errors_stay_inside (env : Env) (w : World) :
  (forall query_text limit,
      exists results w',
        VectorStoreService.search_similar env query_text limit w = (Ok results, w')
        /\ collection w' = collection w
        /\ (raises env (QdrantSearch (query_vector_of env query_text) limit) = true ->
            results = [])
        /\ (raises env (EmbeddingsCreate [query_text]) = true ->
            calls w' = calls w ++ [EmbeddingsCreate [query_text];
                                   QdrantSearch [] limit]))
  /\ (forall source_path,
        exists w',
          VectorStoreService.delete_by_source_path env source_path w = (Ok tt, w')
          /\ (raises env (QdrantScroll source_path 10000) = true
              \/ (forall ids, raises env (QdrantDelete ids) = true) ->
              collection w' = collection w))
  /\ (forall texts metadata,
        exists ids w',
          VectorStoreService.store_embeddings env texts metadata w = (Ok ids, w')
          /\ (raises env (QdrantUpsert (points_of env texts metadata (next_uuid w))) = true ->
              ids = [] /\ collection w' = collection w)
          /\ (raises env (EmbeddingsCreate texts) = true ->
              points_of env texts metadata (next_uuid w) = []
              /\ collection w' = collection w
              /\ (raises env (QdrantUpsert []) = false ->
                  ids = seq (next_uuid w) (length texts)))).
Proof.
  split; [|split].
  - intros query_text limit. rewrite search_similar_eq.
    eexists. eexists. split; [reflexivity|]. split; [reflexivity|].
    split; [now intros ->|].
    intros Hemb. rewrite (query_vector_without_embedding env query_text Hemb).
    cbn [calls add_call]. now rewrite <- app_assoc.
  - intros source_path. rewrite delete_by_source_path_eq.
    eexists. split; [reflexivity|]. reflexivity.
  - intros texts metadata. rewrite store_embeddings_eq.
    destruct (raises env (QdrantUpsert _)) eqn:Hups.
    + eexists. eexists. split; [reflexivity|].
      split; [intros _; split; reflexivity|].
      intros Hemb.
      pose proof (points_of_without_embeddings env texts metadata (next_uuid w) Hemb)
        as Hnone.
      split; [exact Hnone|]. split; [reflexivity|]. rewrite Hnone in Hups. congruence.
    + eexists. eexists. split; [reflexivity|]. split; [discriminate|].
      intros Hemb.
      pose proof (points_of_without_embeddings env texts metadata (next_uuid w) Hemb)
        as Hnone.
      split; [exact Hnone|]. rewrite Hnone. split; reflexivity.
Qed.

Lemma provider_errors_stay_inside_witness :
  exists w',
    VectorStoreService.store_embeddings (Demo.env Demo.embeddings_fail)
      ["a"; "b"] None Demo.empty_world = (Ok [0%nat; 1%nat], w')
    /\ collection w' = [].
Proof.
  destruct (proj2 (proj2 (provider_errors_stay_inside
              (Demo.env Demo.embeddings_fail) Demo.empty_world)) ["a"; "b"] None)
    as (ids & w' & Heq & _ & Hemb).
  destruct (Hemb eq_refl) as (_ & Hcoll & Hids).
  exists w'. rewrite Heq, (Hids eq_refl). split; [reflexivity|exact Hcoll].
Defined.

(** With an embedding call that raises, [store_embeddings] returns an
    id although no point is stored. *)
Lemma failure_gives_no_ids_fails :
  ~ failure_gives_no_ids (Demo.env Demo.embeddings_fail) ["a"] None Demo.empty_world.
Proof.
  intros H. destruct H as (w' & Heq & _); [left; reflexivity|].
  vm_compute in Heq. discriminate.
Qed.

(** [store_embeddings] returns the empty list when the upsert raises and
    the fresh ids otherwise. *)
Lemma store_embeddings_ids (env : Env) texts metadata w :
  let points := points_of env texts metadata (next_uuid w) in
  exists ids w',
    VectorStoreService.store_embeddings env texts metadata w = (Ok ids, w')
    /\ (raises env (QdrantUpsert points) = true -> ids = [])
    /\ (raises env (QdrantUpsert points) = false ->
        ids = seq (next_uuid w) (length texts)).
Proof.
  intros points. rewrite store_embeddings_eq. fold points.
  destruct (raises env (QdrantUpsert points)); eexists; eexists;
    (split; [reflexivity|]); split; congruence.
Qed.

Lemma ids_or_empty_fails :
  ~ ids_or_empty (Demo.env Demo.embeddings_fail) ["a"] None Demo.empty_world.
Proof.
  intros (_ & H & _). specialize (H eq_refl). vm_compute in H. discriminate.
Qed.

End BoundaryFacts.

(** ** ingest.py: one run of [process_document] *)

Module IngestFacts.
Import World Outcome ServiceFacts Ingest.

Section WithEnv.
Variable env : Env.

Lemma store_embeddings_outcome texts metadata w :
  VectorStoreService.store_embeddings env texts metadata w
  = (Ok (returned_ids env texts metadata w), after_store env texts metadata w).
Proof.
  rewrite store_embeddings_eq. unfold returned_ids, after_store.
  destruct (raises env (QdrantUpsert _)); reflexivity.
Qed.

Lemma after_store_documents texts metadata w :
  documents (after_store env texts metadata w) = documents w.
Proof. unfold after_store. destruct (raises env _); reflexivity. Qed.

Lemma after_store_document_chunks texts metadata w :
  document_chunks (after_store env texts metadata w) = document_chunks w.
Proof. unfold after_store. destruct (raises env _); reflexivity. Qed.

Lemma after_store_next_uuid texts metadata w :
  next_uuid (after_store env texts metadata w) = (next_uuid w + length texts)%nat.
Proof. unfold after_store. destruct (raises env _); reflexivity. Qed.

Lemma after_store_calls texts metadata w :
  calls (after_store env texts metadata w)
  = calls w ++ [EmbeddingsCreate texts;
                QdrantUpsert (points_of env texts metadata (next_uuid w))].
Proof.
  unfold after_store. destruct (raises env _); cbn [calls add_call set_collection set_next_uuid];
    now rewrite <- app_assoc.
Qed.

(** *** [DocumentService] *)

Lemma create_document_chunk_eq document index content tokens vector w :
  DocumentService.create_document_chunk env DocumentService.Clean
    document index content tokens vector w
  = if raises env (DbCreateDocumentChunk document index)
    then (Raise, add_call (DbCreateDocumentChunk document index) w)
    else (Ok (mkDocumentChunk (next_uuid w) document index content vector tokens),
          mkWorld (documents w)
                  (document_chunks w
                   ++ [mkDocumentChunk (next_uuid w) document index content vector tokens])
                  (collection w) (S (next_uuid w))
                  (calls w ++ [DbCreateDocumentChunk document index])).
Proof.
  unfold DocumentService.create_document_chunk, bind. rewrite call_eq.
  destruct (raises env _); reflexivity.
Qed.

(** With a row that waits in the session the commit raises, whatever the
    environment does. *)
Lemma create_document_chunk_dirty id h document index content tokens vector w :
  DocumentService.create_document_chunk env (DocumentService.Dirty id h)
    document index content tokens vector w
  = (Raise, add_call (DbCreateDocumentChunk document index) w).
Proof.
  unfold DocumentService.create_document_chunk, bind. rewrite call_eq.
  destruct (raises env _); reflexivity.
Qed.

(** The chunk loop: it writes the rows in order, up to the first call
    that raises. *)
Lemma chunk_loop document vector_ids entries w :
  exists k r w',
    for_each entries
      (fun '(i, chunk) =>
         bind (DocumentService.create_document_chunk env DocumentService.Clean
                 document
                 (ChunkData.index chunk) (ChunkData.content chunk)
                 (ChunkData.token_count chunk) (vector_ids !! i))
              (fun _ => ret tt)) w = (r, w')
    /\ documents w' = documents w
    /\ collection w' = collection w
    /\ document_chunks w'
       = document_chunks w ++ take k (rows_from document vector_ids (next_uuid w) entries)
    /\ (r = Ok tt ->
        (length entries <= k)%nat
        /\ next_uuid w' = (next_uuid w + length entries)%nat
        /\ calls w' = calls w ++ chunk_calls document entries)
    /\ (Forall (fun c => raises env c = false) (chunk_calls document entries) ->
        r = Ok tt).
Proof.
  revert w. induction entries as [|[i chunk] entries IH]; intros w.
  - exists 0%nat, (Ok tt), w. cbn [for_each ret rows_from take chunk_calls map length].
    rewrite !app_nil_r. repeat split; auto with arith.
  - cbn [for_each]. unfold bind at 1. unfold bind at 1.
    rewrite create_document_chunk_eq.
    destruct (raises env (DbCreateDocumentChunk document (ChunkData.index chunk))) eqn:Hr.
    + exists 0%nat, Raise. eexists. split; [reflexivity|].
      cbn [documents collection document_chunks add_call take].
      rewrite app_nil_r. repeat split; try discriminate.
      intros H. apply Forall_inv in H. cbn [snd] in H. congruence.
    + cbn [ret].
      match goal with |- context [for_each entries ?b ?w1] =>
        destruct (IH w1) as (k & r & w' & Heq & Hd & Hc & Hch & Hok & Hall)
      end.
      exists (S k), r, w'. split; [exact Heq|].
      cbn [documents collection document_chunks next_uuid calls] in *.
      split; [exact Hd|]. split; [exact Hc|]. split.
      * rewrite Hch. cbn [rows_from take chunk_row]. now rewrite <- app_assoc.
      * split.
        -- intros Hr'. destruct (Hok Hr') as (Hk & Hn & Hcalls).
           cbn [length chunk_calls map snd]. split; [lia|]. split; [lia|].
           rewrite Hcalls. now rewrite <- app_assoc.
        -- intros H. apply Forall_cons in H as [_ H]. auto.
Qed.

(** The chunk loop with a row that waits in the session: the first
    commit raises and no row is written. *)
Lemma chunk_loop_dirty id h document (vector_ids : list uuid)
    (entry : nat * ChunkData.t) entries w :
  for_each (entry :: entries)
    (fun '(i, chunk) =>
       bind (DocumentService.create_document_chunk env (DocumentService.Dirty id h)
               document
               (ChunkData.index chunk) (ChunkData.content chunk)
               (ChunkData.token_count chunk) (vector_ids !! i))
            (fun _ => ret tt)) w
  = (Raise, add_call (DbCreateDocumentChunk document (ChunkData.index (snd entry))) w).
Proof.
  destruct entry as [i chunk]. cbn [for_each snd]. unfold bind at 1. unfold bind at 1.
  now rewrite create_document_chunk_dirty.
Qed.

End WithEnv.

End IngestFacts.

(** ** ingest.py: the unchanged document *)

Module RunFacts.
Import World Outcome ServiceFacts Ingest IngestFacts.
Import DocumentService.

(** *** Rows found and updated in place *)





Lemma map_is_processed_update_hash p h l :
  map is_processed (update_first p (with_content_hash h) l) = map is_processed l.
Proof.
  induction l as [|x l IH]; [reflexivity|]. cbn [update_first].
  destruct (p x); cbn [map]; [reflexivity|]. now rewrite IH.
Qed.

Section WithEnv.
Variable env : Env.

Lemma update_first_none {A} (p : A -> bool) f l :
  List.find p l = None -> update_first p f l = l.
Proof.
  induction l as [|x l IH]; [reflexivity|]. cbn [List.find update_first].
  destruct (p x); [discriminate|]. intros H. now rewrite IH.
Qed.

Lemma set_documents_same w : set_documents (documents w) w = w.
Proof. now destruct w. Qed.

Lemma update_document_processed_status_eq id b w :
  update_document_processed_status env Clean id b w
  = (if raises env (DbUpdateDocumentProcessedStatus id) then Raise else Ok tt,
     if raises env (DbUpdateDocumentProcessedStatus id)
     then add_call (DbUpdateDocumentProcessedStatus id) w
     else set_documents
            (update_first (has_id id) (with_is_processed b) (documents w))
            (add_call (DbUpdateDocumentProcessedStatus id) w)).
Proof.
  unfold update_document_processed_status, bind. rewrite call_eq.
  destruct (raises env _); [reflexivity|]. cbn [get documents add_call].
  destruct (List.find (has_id id) (documents w)) eqn:Hfind; [reflexivity|].
  rewrite update_first_none by assumption.
  change (documents w) with (documents (add_call (DbUpdateDocumentProcessedStatus id) w)).
  now rewrite set_documents_same.
Qed.

(** With the row [id] waiting in the session, the commit writes the
    hash that waited together with the flag. *)
Lemma update_document_processed_status_dirty id h b w :
  update_document_processed_status env (Dirty id h) id b w
  = (if raises env (DbUpdateDocumentProcessedStatus id) then Raise else Ok tt,
     if raises env (DbUpdateDocumentProcessedStatus id)
     then add_call (DbUpdateDocumentProcessedStatus id) w
     else set_documents
            (update_first (has_id id)
               (fun d => with_is_processed b (with_content_hash h d)) (documents w))
            (add_call (DbUpdateDocumentProcessedStatus id) w)).
Proof.
  unfold update_document_processed_status, bind. rewrite call_eq.
  destruct (raises env _); [reflexivity|]. cbn [get documents add_call].
  rewrite Nat.eqb_refl.
  destruct (List.find (has_id id) (documents w)) eqn:Hfind; [reflexivity|].
  rewrite update_first_none by assumption.
  change (documents w) with (documents (add_call (DbUpdateDocumentProcessedStatus id) w)).
  now rewrite set_documents_same.
Qed.

Lemma get_document_by_source_path_eq path w :
  get_document_by_source_path env Clean path w
  = (if raises env (DbGetDocumentBySourcePath path) then Raise
     else Ok (List.find (has_path path) (documents w)),
     add_call (DbGetDocumentBySourcePath path) w).
Proof.
  unfold get_document_by_source_path, bind. rewrite call_eq.
  destruct (raises env _); [reflexivity|]. cbn [get ret documents add_call].
  now destruct (List.find (has_path path) (documents w)).
Qed.


(** From "Chunk the document" on. *)
Lemma chunk_embed_and_record_outcome path content doc w :
  let chunk_data := chunk_document content 1000 100 in
  let texts := map ChunkData.content chunk_data in
  let metadata := Some (map (chunk_metadata path (doc_id doc)) chunk_data) in
  let ids := returned_ids env texts metadata w in
  let stored := after_store env texts metadata w in
  exists k r w',
    chunk_embed_and_record env path content doc w = (r, w')
    /\ collection w' = collection stored
    /\ document_chunks w'
       = document_chunks w
         ++ take k (rows_from (doc_id doc) ids (next_uuid stored) (enumerate chunk_data))
    /\ (r = Ok tt ->
        (length chunk_data <= k)%nat
        /\ documents w'
           = update_first (has_id (doc_id doc)) (with_is_processed true) (documents w)
        /\ calls w'
           = calls stored ++ chunk_calls (doc_id doc) (enumerate chunk_data)
             ++ [DbUpdateDocumentProcessedStatus (doc_id doc)])
    /\ (r = Raise -> documents w' = documents w)
    /\ (no_db_raises env -> r = Ok tt).
Proof.
  intros chunk_data texts metadata ids stored.
  unfold chunk_embed_and_record, chunk_embed_and_record_in. fold chunk_data. fold texts.
  erewrite bind_ok by apply store_embeddings_outcome.
  fold metadata. fold ids. fold stored.
  destruct (chunk_loop env (doc_id doc) ids (enumerate chunk_data) stored)
    as (k & r & w1 & Heq & Hd & Hc & Hch & Hok & Hall).
  assert (Hlen : length (enumerate chunk_data) = length chunk_data).
  { unfold enumerate. apply length_imap. }
  assert (Hsd : documents stored = documents w) by apply after_store_documents.
  assert (Hsc : document_chunks stored = document_chunks w)
    by apply after_store_document_chunks.
  rewrite Hsd in Hd. rewrite Hsc in Hch.
  unfold bind at 1. rewrite Heq. destruct r as [[]|].
  - rewrite update_document_processed_status_eq.
    destruct (Hok eq_refl) as (Hk & Hn & Hcalls).
    exists k. eexists. eexists. split; [reflexivity|].
    destruct (raises env (DbUpdateDocumentProcessedStatus (doc_id doc))) eqn:Hr;
      cbn [collection document_chunks documents calls add_call set_documents].
    + split; [exact Hc|]. split; [exact Hch|].
      split; [discriminate|]. split.
      * intros _. now rewrite Hd.
      * intros Hdb. rewrite Hdb in Hr; [discriminate|reflexivity].
    + split; [exact Hc|]. split; [exact Hch|].
      split; [|split; [discriminate|reflexivity]].
      intros _. split; [lia|]. split; [now rewrite Hd|].
      rewrite Hcalls. now rewrite <- app_assoc.
  - exists k, Raise, w1. split; [reflexivity|]. split; [exact Hc|].
    split; [exact Hch|].
    split; [discriminate|]. split.
    + intros _. now rewrite Hd.
    + intros Hdb. apply Hall. apply List.Forall_forall. intros c Hin.
      apply Hdb. unfold chunk_calls in Hin. apply in_map_iff in Hin as (e & <- & _).
      reflexivity.
Qed.

(** The same with the row of [doc] waiting in the session: the first
    row commit raises; without a chunk, the status update writes the
    hash that waited and the flag. *)
Lemma chunk_embed_and_record_dirty path content doc h w :
  let chunk_data := chunk_document content 1000 100 in
  let texts := map ChunkData.content chunk_data in
  let metadata := Some (map (chunk_metadata path (doc_id doc)) chunk_data) in
  let stored := after_store env texts metadata w in
  let update := DbUpdateDocumentProcessedStatus (doc_id doc) in
  chunk_embed_and_record_in env (Dirty (doc_id doc) h) path content doc w
  = match chunk_data with
    | [] =>
        (if raises env update then Raise else Ok tt,
         if raises env update then add_call update stored
         else set_documents
                (update_first (has_id (doc_id doc))
                   (fun d => with_is_processed true (with_content_hash h d))
                   (documents stored))
                (add_call update stored))
    | chunk :: _ =>
        (Raise,
         add_call (DbCreateDocumentChunk (doc_id doc) (ChunkData.index chunk)) stored)
    end.
Proof.
  intros chunk_data texts metadata stored update.
  unfold chunk_embed_and_record_in. fold chunk_data. fold texts.
  erewrite bind_ok by apply store_embeddings_outcome.
  fold metadata. fold stored.
  destruct chunk_data as [|chunk chunk_data'].
  - cbn [enumerate imap for_each]. unfold bind at 1. cbn [ret].
    apply update_document_processed_status_dirty.
  - unfold enumerate. rewrite imap_cons. unfold bind at 1.
    now rewrite chunk_loop_dirty.
Qed.

(** C5.  When the stored hash of the document found for the path equals
    the hash of the content, [process_document] leaves documents, chunk
    rows, collection and uuid supply as they are; the only call it makes
    is the lookup of the document, so nothing is written to or deleted
    from the vector index; it returns normally when the lookup does. *)
Theorem unchanged_document_is_skipped (path stem content : string) (w : World)
    (d : Document) :
  List.find (has_path path) (documents w) = Some d ->
  content_hash d = sha256_hexdigest env content ->
  exists r,
    process_document env path stem content w
    = (r, add_call (DbGetDocumentBySourcePath path) w)
    /\ (raises env (DbGetDocumentBySourcePath path) = false -> r = Ok tt).
Proof.
  intros Hfind Hhash. unfold process_document, calculate_content_hash.
  unfold bind at 1. rewrite get_document_by_source_path_eq.
  destruct (raises env (DbGetDocumentBySourcePath path)).
  - exists Raise. split; [reflexivity|discriminate].
  - rewrite Hfind. rewrite Hhash, String.eqb_refl. exists (Ok tt).
    split; reflexivity.
Qed.

End WithEnv.

Lemma unchanged_document_is_skipped_witness :
  exists r,
    process_document (Demo.env Demo.no_faults) "docs/a.md" "a" "Hello world. Bye."
      Demo.ingested_once
    = (r, add_call (DbGetDocumentBySourcePath "docs/a.md") Demo.ingested_once)
    /\ (raises (Demo.env Demo.no_faults) (DbGetDocumentBySourcePath "docs/a.md") = false ->
        r = Ok tt).
Proof.
  apply (unchanged_document_is_skipped (Demo.env Demo.no_faults) "docs/a.md" "a"
           "Hello world. Bye." Demo.ingested_once
           (mkDocument 0%nat "docs/a.md" "a" "Hello world. Bye." true));
    reflexivity.
Defined.

End RunFacts.

(** ** ingest.py: the rows and the points of one run *)

Module RowFacts.
Import World Outcome ServiceFacts Ingest IngestFacts RunFacts.
Import DocumentService.

Lemma lookup_enumerate {A} (l : list A) i :
  enumerate l !! i = (fun x => (i, x)) <$> l !! i.
Proof. unfold enumerate. apply list_lookup_imap. Qed.

Lemma length_enumerate {A} (l : list A) : length (enumerate l) = length l.
Proof. unfold enumerate. apply length_imap. Qed.

Lemma length_chunk_document content chunk_size overlap :
  length (chunk_document content chunk_size overlap)
  = length (TextProcessor.chunk_text content chunk_size overlap).
Proof. unfold chunk_document. now rewrite length_map, length_enumerate. Qed.

Lemma chunk_document_index content chunk_size overlap i chunk :
  chunk_document content chunk_size overlap !! i = Some chunk ->
  ChunkData.index chunk = Z.of_nat i.
Proof.
  unfold chunk_document. rewrite list_lookup_fmap, lookup_enumerate.
  destruct (TextProcessor.chunk_text content chunk_size overlap !! i) as [c|];
    [|discriminate].
  cbn. intros [= <-]. reflexivity.
Qed.

Lemma rows_from_Forall (P : DocumentChunk -> Prop) document ids u entries :
  (forall v e, In e entries -> P (chunk_row document ids v e)) ->
  Forall P (rows_from document ids u entries).
Proof.
  revert u. induction entries as [|e entries IH]; intros u H; [constructor|].
  cbn [rows_from]. constructor.
  - apply H. now left.
  - apply IH. intros v e' He'. apply H. now right.
Qed.

Lemma length_rows_from document ids u entries :
  length (rows_from document ids u entries) = length entries.
Proof.
  revert u. induction entries as [|e entries IH]; intros u; [reflexivity|].
  cbn [rows_from length]. now rewrite IH.
Qed.

Lemma map_chunk_index_rows document ids u entries :
  map chunk_index (rows_from document ids u entries)
  = map (fun e => ChunkData.index (snd e)) entries.
Proof.
  revert u. induction entries as [|[i c] entries IH]; intros u; [reflexivity|].
  cbn [rows_from map chunk_row chunk_index snd]. now rewrite IH.
Qed.

Lemma map_vector_id_rows document ids u entries :
  map vector_id (rows_from document ids u entries)
  = map (fun e => ids !! fst e) entries.
Proof.
  revert u. induction entries as [|[i c] entries IH]; intros u; [reflexivity|].
  cbn [rows_from map chunk_row vector_id fst]. now rewrite IH.
Qed.

(** The rows of one run are numbered from 0 on. *)
Lemma rows_numbered document ids u content chunk_size overlap :
  let chunk_data := chunk_document content chunk_size overlap in
  map chunk_index (rows_from document ids u (enumerate chunk_data))
  = map Z.of_nat (seq 0 (length chunk_data)).
Proof.
  intros chunk_data. rewrite map_chunk_index_rows.
  apply list_eq. intros i. rewrite !list_lookup_fmap, lookup_enumerate.
  destruct (chunk_data !! i) as [c|] eqn:Hc.
  - rewrite lookup_seq_lt by (eapply lookup_lt_Some; eassumption).
    cbn. f_equal. eapply chunk_document_index. exact Hc.
  - rewrite lookup_seq_ge by (now apply lookup_ge_None). reflexivity.
Qed.

(** Each row carries the id returned for its position, if there is one. *)
Lemma rows_vector_ids document ids u content chunk_size overlap :
  Forall (fun row => exists i : nat,
              chunk_index row = Z.of_nat i /\ vector_id row = ids !! i)
         (rows_from document ids u
            (enumerate (chunk_document content chunk_size overlap))).
Proof.
  apply rows_from_Forall. intros v [i c] Hin. apply in_enumerate in Hin.
  exists i. cbn [chunk_row chunk_index vector_id]. split; [|reflexivity].
  eapply chunk_document_index. exact Hin.
Qed.

Lemma rows_vector_ids_all document (u0 n : nat) u content chunk_size overlap :
  length (chunk_document content chunk_size overlap) = n ->
  map vector_id
    (rows_from document (seq u0 n) u
       (enumerate (chunk_document content chunk_size overlap)))
  = map Some (seq u0 n).
Proof.
  intros Hn. rewrite map_vector_id_rows.
  apply list_eq. intros i. rewrite !list_lookup_fmap, lookup_enumerate.
  destruct (chunk_document content chunk_size overlap !! i) as [c|] eqn:Hc.
  - assert (Hi : (i < n)%nat) by (rewrite <- Hn; eapply lookup_lt_Some; eassumption).
    cbn. rewrite !lookup_seq_lt by assumption. reflexivity.
  - apply lookup_ge_None in Hc. rewrite lookup_seq_ge by lia. reflexivity.
Qed.

(** *** The points of one run *)

Section WithEnv.
Variable env : Env.

Lemma points_of_ok texts metadata (u : nat) :
  raises env (EmbeddingsCreate texts) = false ->
  length (points_of env texts metadata u) = length texts
  /\ map point_id (points_of env texts metadata u) = seq u (length texts)
  /\ forall i p, points_of env texts metadata u !! i = Some p ->
       exists text, texts !! i = Some text
         /\ point_payload p = <["text" := VStr text]> (payload_at metadata i).
Proof.
  intros Hr. unfold points_of, embeddings_of. rewrite Hr.
  assert (Hlen : length (zip texts (map (embedding_model env) texts)) = length texts).
  { rewrite length_zip_with, length_map. lia. }
  split; [now rewrite length_map, length_enumerate|]. split.
  - apply list_eq. intros i. rewrite !list_lookup_fmap, lookup_enumerate.
    destruct (zip texts (map (embedding_model env) texts) !! i) as [[t e]|] eqn:Hz.
    + assert (Hi : (i < length texts)%nat)
        by (rewrite <- Hlen; eapply lookup_lt_Some; eassumption).
      cbn. rewrite !lookup_seq_lt by assumption. reflexivity.
    + apply lookup_ge_None in Hz. rewrite lookup_seq_ge by lia. reflexivity.
  - intros i p. rewrite list_lookup_fmap, lookup_enumerate.
    destruct (zip texts (map (embedding_model env) texts) !! i) as [[t e]|] eqn:Hz;
      [|discriminate].
    cbn. intros [= <-]. exists t. split; [|reflexivity].
    apply lookup_zip_with_Some in Hz as (x & y & Heq & Hx & _).
    congruence.
Qed.

Lemma points_of_failed texts metadata (u : nat) :
  raises env (EmbeddingsCreate texts) = true -> points_of env texts metadata u = [].
Proof.
  intros Hr. unfold points_of, embeddings_of. rewrite Hr.
  now destruct texts.
Qed.

Lemma points_tagged path document content chunk_size overlap (u : nat) :
  let chunk_data := chunk_document content chunk_size overlap in
  Forall (fun p => Qdrant.has_source_path path p = true)
         (points_of env (map ChunkData.content chunk_data)
            (Some (map (chunk_metadata path document) chunk_data)) u).
Proof.
  intros chunk_data.
  destruct (raises env (EmbeddingsCreate (map ChunkData.content chunk_data))) eqn:Hr.
  - rewrite points_of_failed by assumption. constructor.
  - apply Forall_lookup_2. intros i p Hp.
    destruct (points_of_ok _ (Some (map (chunk_metadata path document) chunk_data)) u Hr)
      as (_ & _ & Hpay).
    destruct (Hpay i p Hp) as (text & Htext & Hpayload).
    unfold Qdrant.has_source_path. apply bool_decide_eq_true.
    rewrite Hpayload, lookup_insert_ne by discriminate.
    unfold payload_at. rewrite list_lookup_fmap.
    rewrite list_lookup_fmap in Htext.
    destruct (chunk_data !! i) as [c|]; [|discriminate]. cbn.
    unfold chunk_metadata. rewrite lookup_insert_eq. reflexivity.
Qed.

End WithEnv.

End RowFacts.

(** ** ingest.py: the new and the changed document *)

Module ProcessFacts.
Import World Outcome ServiceFacts Ingest IngestFacts RunFacts RowFacts StatedServices.
Import DocumentService.

Section WithEnv.
Variable env : Env.

(** The run for a document whose stored hash differs, up to "Chunk the
    document": nothing is written, the new hash waits in the session. *)
Lemma process_changed path stem content w d :
  raises env (DbGetDocumentBySourcePath path) = false ->
  List.find (has_path path) (documents w) = Some d ->
  content_hash d <> sha256_hexdigest env content ->
  let h := sha256_hexdigest env content in
  let w0 := add_call (QdrantScroll path 10000)
              (add_call (DbGetDocumentBySourcePath path) w) in
  process_document env path stem content w
  = chunk_embed_and_record_in env (Dirty (doc_id d) h) path content
      (with_content_hash h d) w0.
Proof.
  intros Hr Hfind Hhash h w0. unfold process_document, calculate_content_hash.
  unfold bind at 1. rewrite get_document_by_source_path_eq, Hr, Hfind.
  apply String.eqb_neq in Hhash. rewrite Hhash.
  unfold bind at 1. unfold bind at 1. rewrite delete_by_source_path_eq.
  reflexivity.
Qed.


Lemma returned_ids_next_uuid texts metadata w w0 :
  next_uuid w0 = next_uuid w ->
  returned_ids env texts metadata w0 = returned_ids env texts metadata w.
Proof. unfold returned_ids. now intros ->. Qed.

Lemma after_store_collection texts metadata w :
  collection (after_store env texts metadata w)
  = if raises env (QdrantUpsert (points_of env texts metadata (next_uuid w)))
    then collection w
    else Qdrant.upsert_points (points_of env texts metadata (next_uuid w))
           (collection w).
Proof. unfold after_store. destruct (raises env _); reflexivity. Qed.

(** C1 (amended).  For a document whose stored hash differs from the
    hash of the content, [process_document] makes, in this order, the
    lookup, the scroll of [delete_by_source_path], the embedding call and
    the upsert of the points of the new chunks, and after these only
    database calls: no delete call and no second write to the vector
    index.  No chunk row is removed or changed: the rows that were there
    stay, at the head of the table, and what the run writes comes after
    them, from the rows of the new chunks, which are numbered from 0 on
    and carry each the id returned for its position.  The collection is
    the old one with the points of this run upserted, or the old one
    when the upsert raises; when the embedding call and the upsert
    succeed, the points are one per chunk, their ids are the returned
    ids, and all carry the source path. *)
Theorem changed_document_appends_new_rows (path stem content : string)
    (w : World) (d : Document) :
  raises env (DbGetDocumentBySourcePath path) = false ->
  List.find (has_path path) (documents w) = Some d ->
  content_hash d <> sha256_hexdigest env content ->
  let chunk_data := chunk_document content 1000 100 in
  let texts := map ChunkData.content chunk_data in
  let metadata := Some (map (chunk_metadata path (doc_id d)) chunk_data) in
  let points := points_of env texts metadata (next_uuid w) in
  let ids := returned_ids env texts metadata w in
  let rows := rows_from (doc_id d) ids (next_uuid w + length texts)
                (enumerate chunk_data) in
  exists k r w' later,
    process_document env path stem content w = (r, w')
    /\ calls w'
       = calls w
         ++ [DbGetDocumentBySourcePath path; QdrantScroll path 10000;
             EmbeddingsCreate texts; QdrantUpsert points]
         ++ later
    /\ Forall (fun c => is_db_call c = true) later
    /\ document_chunks w' = document_chunks w ++ take k rows
    /\ map chunk_index rows = map Z.of_nat (seq 0 (length chunk_data))
    /\ Forall (fun row => exists i : nat,
                  chunk_index row = Z.of_nat i /\ vector_id row = ids !! i) rows
    /\ collection w'
       = (if raises env (QdrantUpsert points) then collection w
          else Qdrant.upsert_points points (collection w))
    /\ (raises env (EmbeddingsCreate texts) = false ->
        raises env (QdrantUpsert points) = false ->
        length points = length chunk_data
        /\ map point_id points = ids
        /\ Forall (fun p => Qdrant.has_source_path path p = true) points).
Proof.
  intros Hget Hfind Hhash chunk_data texts metadata points ids rows.
  rewrite (process_changed path stem content w d) by auto.
  set (h := sha256_hexdigest env content).
  set (w0 := add_call _ _).
  pose proof (chunk_embed_and_record_dirty env path content
                (with_content_hash h d) h w0) as Heq.
  cbn [doc_id with_content_hash] in Heq. cbv zeta in Heq.
  fold chunk_data texts metadata in Heq.
  set (stored := after_store env texts metadata w0) in *.
  assert (Hcalls : calls stored
                   = calls w ++ [DbGetDocumentBySourcePath path;
                                 QdrantScroll path 10000;
                                 EmbeddingsCreate texts; QdrantUpsert points]).
  { unfold stored. rewrite after_store_calls. unfold w0.
    cbn [calls add_call next_uuid]. now rewrite <- !app_assoc. }
  assert (Hcoll : collection stored
                  = if raises env (QdrantUpsert points) then collection w
                    else Qdrant.upsert_points points (collection w)).
  { unfold stored. now rewrite after_store_collection. }
  assert (Hrows : document_chunks stored = document_chunks w).
  { unfold stored. now rewrite after_store_document_chunks. }
  assert (Hlast : forall r w' c,
            is_db_call c = true ->
            calls w' = calls stored ++ [c] ->
            document_chunks w' = document_chunks stored ->
            collection w' = collection stored ->
            chunk_embed_and_record_in env (Dirty (doc_id d) h) path content
              (with_content_hash h d) w0 = (r, w') ->
            exists k r w' later,
              chunk_embed_and_record_in env (Dirty (doc_id d) h) path content
                (with_content_hash h d) w0 = (r, w')
              /\ calls w'
                 = calls w
                   ++ [DbGetDocumentBySourcePath path; QdrantScroll path 10000;
                       EmbeddingsCreate texts; QdrantUpsert points]
                   ++ later
              /\ Forall (fun c => is_db_call c = true) later
              /\ document_chunks w' = document_chunks w ++ take k rows
              /\ collection w'
                 = (if raises env (QdrantUpsert points) then collection w
                    else Qdrant.upsert_points points (collection w))).
  { intros r w' c Hc Hw'calls Hw'rows Hw'coll Hrun.
    exists 0%nat, r, w', [c]. split; [exact Hrun|].
    split; [now rewrite Hw'calls, Hcalls, <- app_assoc|].
    split; [now constructor|].
    split; [now rewrite Hw'rows, Hrows, take_0, app_nil_r|].
    now rewrite Hw'coll, Hcoll. }
  assert (Hrun : exists k r w' later,
            chunk_embed_and_record_in env (Dirty (doc_id d) h) path content
              (with_content_hash h d) w0 = (r, w')
            /\ calls w'
               = calls w
                 ++ [DbGetDocumentBySourcePath path; QdrantScroll path 10000;
                     EmbeddingsCreate texts; QdrantUpsert points]
                 ++ later
            /\ Forall (fun c => is_db_call c = true) later
            /\ document_chunks w' = document_chunks w ++ take k rows
            /\ collection w'
               = (if raises env (QdrantUpsert points) then collection w
                  else Qdrant.upsert_points points (collection w))).
  { assert (Hcase : chunk_data = [] \/ exists c l, chunk_data = c :: l)
      by (destruct chunk_data; eauto).
    destruct Hcase as [E|(c & l & E)]; rewrite E in Heq.
    - destruct (raises env (DbUpdateDocumentProcessedStatus (doc_id d)));
        (eapply (Hlast _ _ (DbUpdateDocumentProcessedStatus (doc_id d)));
         [| | | |exact Heq]; reflexivity).
    - eapply (Hlast _ _ (DbCreateDocumentChunk (doc_id d) (ChunkData.index c)));
        [| | | |exact Heq]; reflexivity. }
  destruct Hrun as (k & r & w' & later & Hrun & Hc & Hdb & Hr & Hco).
  exists k, r, w', later. split; [exact Hrun|]. split; [exact Hc|].
  split; [exact Hdb|]. split; [exact Hr|].
  split; [apply rows_numbered|]. split; [apply rows_vector_ids|].
  split; [exact Hco|].
  intros Hemb Hups.
  destruct (points_of_ok env texts metadata (next_uuid w) Hemb) as (Hlen & Hids & _).
  fold points in Hlen, Hids.
  split; [rewrite Hlen; apply length_map|]. split.
  - unfold ids, returned_ids. fold points. now rewrite Hups.
  - apply points_tagged.
Qed.




End WithEnv.

End ProcessFacts.

(** ** chat_service.py: the context of an answer *)

Module ChatFacts.
Import World Outcome ServiceFacts ChatService.
Import Qdrant VectorStoreService.

(** *** The ranking of the collection *)

Lemma insert_hit_perm h hs : Permutation (insert_hit h hs) (h :: hs).
Proof.
  induction hs as [|h' hs IH]; [reflexivity|]. cbn [insert_hit].
  destruct (hit_score h' <=? hit_score h); [reflexivity|].
  rewrite IH. apply perm_swap.
Qed.

Lemma rank_perm hs : Permutation (rank hs) hs.
Proof.
  induction hs as [|h hs IH]; [reflexivity|]. cbn [rank fold_right].
  fold (rank hs). rewrite insert_hit_perm. now constructor.
Qed.

Lemma insert_hit_descending h hs : descending hs -> descending (insert_hit h hs).
Proof.
  induction 1 as [|h' hs Hs IH Hall]; cbn [insert_hit].
  - repeat constructor.
  - destruct (Z.leb_spec (hit_score h') (hit_score h)) as [Hlt|Hge].
    + constructor; [now constructor|]. constructor; [lia|].
      eapply List.Forall_impl; [|exact Hall]. cbn. intros a Ha. lia.
    + constructor; [exact IH|].
      eapply Permutation_Forall; [symmetry; apply insert_hit_perm|].
      constructor; [lia|assumption].
Qed.

Lemma rank_descending hs : descending (rank hs).
Proof.
  induction hs as [|h hs IH]; [constructor|]. cbn [rank fold_right].
  now apply insert_hit_descending.
Qed.

(** *** The context *)

Lemma join_values_strs sep texts w :
  join_values sep (map VStr texts) w = (Ok (Py.join sep texts), w).
Proof.
  unfold join_values.
  erewrite bind_ok; [reflexivity|].
  induction texts as [|t texts IH]; [reflexivity|].
  cbn [map map_m]. unfold bind at 1. cbn [ret].
  erewrite bind_ok by exact IH. reflexivity.
Qed.

Section WithEnv.
Variable env : Env.

Lemma respond_with_context context_texts texts user_message selected w w1 :
  context_texts_of env user_message selected w = (Ok context_texts, w1) ->
  context_texts = map VStr texts ->
  texts <> [] ->
  snd (get_context_aware_response env user_message selected w)
  = add_call (ChatCompletionsCreate
                (system_message_with (Py.join (nl +:+ nl) (take 3 texts)))
                user_message) w1.
Proof.
  intros Hctx -> Hne. unfold get_context_aware_response, try_except.
  erewrite bind_ok by exact Hctx.
  destruct texts as [|t texts]; [congruence|]. cbn [map].
  assert (Hjoin : join_values (nl +:+ nl)
                    (Py.slice_to 3 (VStr t :: map VStr texts)) w1
                  = (Ok (Py.join (nl +:+ nl) (take 3 (t :: texts))), w1)).
  { unfold Py.slice_to.
    change (VStr t :: map VStr texts) with (VStr <$> (t :: texts)).
    rewrite <- fmap_take. apply join_values_strs. }
  erewrite bind_ok; [|erewrite bind_ok by exact Hjoin; reflexivity].
  unfold bind at 1. rewrite call_eq.
  destruct (raises env _); reflexivity.
Qed.

Lemma respond_without_context user_message selected w w1 :
  context_texts_of env user_message selected w = (Ok [], w1) ->
  snd (get_context_aware_response env user_message selected w)
  = add_call (ChatCompletionsCreate system_message_without user_message) w1.
Proof.
  intros Hctx. unfold get_context_aware_response, try_except.
  erewrite bind_ok by exact Hctx.
  erewrite bind_ok by reflexivity.
  unfold bind at 1. rewrite call_eq.
  destruct (raises env _); reflexivity.
Qed.

(** C7.  With a selected text that is not empty the context is that text
    alone and the only call made is the chat completion, with a system
    message built around it: no search.  Without one, [search_similar]
    is called with limit 5 (one embedding call, one search call); its
    results are the first five hits of the collection ranked by
    descending score, or none when the search raises; the system message
    is built around the texts of the first three results, joined in that
    order, and is the context-free one when there is no result. *)
Theorem context_is_selected_text_or_top_three (user_message : string)
    (w : World) :
  (forall c text,
      context_texts_of env user_message (Some (String c text)) w
      = (Ok [VStr (String c text)], w)
      /\ snd (get_context_aware_response env user_message
                (Some (String c text)) w)
         = add_call (ChatCompletionsCreate
                       (system_message_with (String c text)) user_message) w)
  /\ exists results w1,
       let q := query_vector_of env user_message in
       let ranked := rank (map (score_point env q) (collection w)) in
       search_similar env user_message 5 w = (Ok results, w1)
       /\ calls w1
          = calls w ++ [EmbeddingsCreate [user_message]; QdrantSearch q 5]
       /\ context_texts_of env user_message None w
          = (Ok (map result_text results), w1)
       /\ (results = [] \/ results = map format_result (take 5 ranked))
       /\ descending ranked
       /\ Permutation ranked (map (score_point env q) (collection w))
       /\ (results = [] ->
           snd (get_context_aware_response env user_message None w)
           = add_call (ChatCompletionsCreate system_message_without user_message) w1)
       /\ (forall texts,
             map result_text results = map VStr texts -> texts <> [] ->
             snd (get_context_aware_response env user_message None w)
             = add_call (ChatCompletionsCreate
                           (system_message_with
                              (Py.join (nl +:+ nl) (take 3 texts)))
                           user_message) w1).
Proof.
  split.
  - intros c text. split; [reflexivity|].
    apply (respond_with_context [VStr (String c text)] [String c text]);
      [reflexivity|reflexivity|discriminate].
  - pose proof (search_similar_eq env user_message 5 w) as Hsearch.
    cbv zeta in Hsearch.
    set (q := query_vector_of env user_message) in *.
    set (ranked := rank (map (score_point env q) (collection w))) in *.
    eexists. eexists. cbv zeta. fold q. fold ranked.
    split; [exact Hsearch|].
    assert (Hctx : context_texts_of env user_message None w
                   = (Ok (map result_text
                            (if raises env (QdrantSearch q 5) then []
                             else map format_result (take (Z.to_nat 5) ranked))),
                      add_call (QdrantSearch q 5)
                        (add_call (EmbeddingsCreate [user_message]) w))).
    { unfold context_texts_of. erewrite bind_ok by exact Hsearch. reflexivity. }
    split; [cbn [calls add_call]; now rewrite <- app_assoc|].
    split; [exact Hctx|]. split.
    { destruct (raises env (QdrantSearch q 5)); [now left|now right]. }
    split; [apply rank_descending|]. split; [apply rank_perm|]. split.
    + intros Hnil. apply respond_without_context. rewrite Hctx, Hnil. reflexivity.
    + intros texts Htexts Hne.
      now apply (respond_with_context _ texts _ _ _ _ Hctx).
Qed.

End WithEnv.

Lemma context_is_selected_text_or_top_three_witness :
  snd (get_context_aware_response (Demo.env Demo.no_faults) "xxx" None
         Demo.five_points)
  = add_call (ChatCompletionsCreate
                (system_message_with
                   (Py.join (nl +:+ nl) ["ccc"; "bb"; "dddd"])) "xxx")
      (add_call (QdrantSearch [3] 5)
         (add_call (EmbeddingsCreate ["xxx"]) Demo.five_points)).
Proof.
  destruct (proj2 (context_is_selected_text_or_top_three
                     (Demo.env Demo.no_faults) "xxx" Demo.five_points))
    as (results & w1 & Hsearch & _ & _ & _ & _ & _ & _ & Hjoin).
  vm_compute in Hsearch. injection Hsearch as <- <-.
  rewrite (Hjoin ["ccc"; "bb"; "dddd"; "a"; "eeeee"]);
    [reflexivity|reflexivity|discriminate].
Defined.

End ChatFacts.

(** ** ingest.py: runs, rows and vector ids *)

Module Closing.
Import World Outcome ServiceFacts Ingest IngestFacts RunFacts RowFacts StatedServices.
Import ProcessFacts BoundaryFacts.
Import DocumentService.

(** C10 (amended).  [store_embeddings] always returns: the empty list
    when the upsert call raises, the fresh ids, one per text, when it
    does not.  In [process_document], every chunk row written carries
    [chunk_index = i] and [vector_id = ids[i]] for the list [ids] that
    [store_embeddings] returned, hence [None] where that list is
    shorter. *)
Theorem vector_ids_follow_the_upsert (env : Env) :
  (forall texts metadata w,
      let points := points_of env texts metadata (next_uuid w) in
      exists ids w',
        VectorStoreService.store_embeddings env texts metadata w = (Ok ids, w')
        /\ (raises env (QdrantUpsert points) = true -> ids = [])
        /\ (raises env (QdrantUpsert points) = false ->
            ids = seq (next_uuid w) (length texts)))
  /\ (forall path content doc w,
        let chunk_data := chunk_document content 1000 100 in
        let texts := map ChunkData.content chunk_data in
        let metadata := Some (map (chunk_metadata path (doc_id doc)) chunk_data) in
        exists ids stored k r w',
          VectorStoreService.store_embeddings env texts metadata w = (Ok ids, stored)
          /\ chunk_embed_and_record env path content doc w = (r, w')
          /\ document_chunks w'
             = document_chunks w
               ++ take k (rows_from (doc_id doc) ids (next_uuid stored)
                            (enumerate chunk_data))
          /\ Forall (fun row => exists i : nat,
                        chunk_index row = Z.of_nat i /\ vector_id row = ids !! i)
                    (rows_from (doc_id doc) ids (next_uuid stored)
                       (enumerate chunk_data))).
Proof.
  split.
  - intros texts metadata w. apply store_embeddings_ids.
  - intros path content doc w chunk_data texts metadata.
    destruct (chunk_embed_and_record_outcome env path content doc w)
      as (k & r & w' & Heq & _ & Hrows & _).
    fold chunk_data texts metadata in Heq, Hrows.
    exists (returned_ids env texts metadata w), (after_store env texts metadata w).
    exists k, r, w'. split; [apply store_embeddings_outcome|].
    split; [exact Heq|]. split; [exact Hrows|]. apply rows_vector_ids.
Qed.

Lemma vector_ids_follow_the_upsert_witness :
  exists w',
    VectorStoreService.store_embeddings (Demo.env Demo.upsert_fails) ["a"; "b"] None
      Demo.empty_world = (Ok [], w').
Proof.
  destruct (proj1 (vector_ids_follow_the_upsert (Demo.env Demo.upsert_fails))
              ["a"; "b"] None Demo.empty_world) as (ids & w' & Heq & Hfail & _).
  exists w'. rewrite Heq. now rewrite Hfail.
Defined.

(** After the re-ingestion of a changed document the row of the old
    chunk is still the row of the document, and the point of the old
    chunk is still in the collection, next to the new one. *)
Lemma reingestion_replaces_fails :
  ~ reingestion_replaces (Demo.env Demo.no_faults) "docs/a.md" "a"
      "Hello world. Bye now." Demo.ingested_once.
Proof.
  intros [H _].
  specialize (H (mkDocument 0%nat "docs/a.md" "a" "Hello world. Bye." true) eq_refl).
  vm_compute in H. discriminate.
Qed.

Lemma changed_document_appends_new_rows_witness :
  exists r w',
    process_document (Demo.env Demo.no_faults) "docs/a.md" "a"
      "Hello world. Bye now." Demo.ingested_once = (r, w')
    /\ map point_id (collection w') = [1%nat; 3%nat]
    /\ take 1 (document_chunks w') = document_chunks Demo.ingested_once.
Proof.
  destruct (changed_document_appends_new_rows (Demo.env Demo.no_faults)
              "docs/a.md" "a" "Hello world. Bye now." Demo.ingested_once
              (mkDocument 0%nat "docs/a.md" "a" "Hello world. Bye." true))
    as (k & r & w' & later & Heq & _ & _ & Hrows & _ & _ & Hcoll & _).
  { reflexivity. }
  { reflexivity. }
  { vm_compute. discriminate. }
  exists r, w'. split; [exact Heq|]. rewrite Hrows, Hcoll.
  split; reflexivity.
Defined.



End Closing.

(** ** ingest.py: the changed document and the waiting row *)

Module ChangedFacts.
Import World Outcome ServiceFacts Ingest IngestFacts RunFacts RowFacts ProcessFacts.
Import DocumentService.

(** X10.  For a document whose stored hash differs from the hash of the
    content, and a content with at least one chunk, [process_document]
    raises, whatever the environment does after the lookup: the
    assignment of the column default, a function, to [doc.updated_at]
    makes the commit of the first chunk row fail.  That call is the last
    one; the points of the new chunks are upserted by then, when the
    upsert did not raise; the documents and the chunk rows are as they
    were, so the document keeps its old hash and flag. *)
Theorem changed_document_with_chunks_raises (env : Env)
    (path stem content : string) (w : World) (d : Document) :
  raises env (DbGetDocumentBySourcePath path) = false ->
  List.find (has_path path) (documents w) = Some d ->
  content_hash d <> sha256_hexdigest env content ->
  chunk_document content 1000 100 <> [] ->
  let chunk_data := chunk_document content 1000 100 in
  let texts := map ChunkData.content chunk_data in
  let metadata := Some (map (chunk_metadata path (doc_id d)) chunk_data) in
  let points := points_of env texts metadata (next_uuid w) in
  exists w',
    process_document env path stem content w = (Raise, w')
    /\ last (calls w') = Some (DbCreateDocumentChunk (doc_id d) 0)
    /\ documents w' = documents w
    /\ document_chunks w' = document_chunks w
    /\ collection w'
       = (if raises env (QdrantUpsert points) then collection w
          else Qdrant.upsert_points points (collection w)).
Proof.
  intros Hget Hfind Hhash Hchunks chunk_data texts metadata points.
  rewrite (process_changed env path stem content w d) by auto.
  set (h := sha256_hexdigest env content).
  set (w0 := add_call _ _).
  pose proof (chunk_embed_and_record_dirty env path content
                (with_content_hash h d) h w0) as Heq.
  cbn [doc_id with_content_hash] in Heq. cbv zeta in Heq.
  fold chunk_data texts metadata in Heq.
  assert (Hcase : exists c l, chunk_data = c :: l).
  { unfold chunk_data.
    destruct (chunk_document content 1000 100); [now contradict Hchunks|eauto]. }
  destruct Hcase as (c & l & E). rewrite E in Heq.
  assert (Hindex : ChunkData.index c = 0).
  { apply (chunk_document_index content 1000 100 0%nat c).
    fold chunk_data. now rewrite E. }
  rewrite Hindex in Heq.
  eexists. split; [exact Heq|].
  split; [cbn [calls add_call]; apply last_snoc|].
  cbn [documents document_chunks collection add_call].
  rewrite after_store_documents, after_store_document_chunks, after_store_collection.
  repeat split.
Qed.

Lemma changed_document_with_chunks_raises_witness :
  exists w',
    process_document (Demo.env Demo.no_faults) "docs/a.md" "a"
      "Hello world. Bye now." Demo.ingested_once = (Raise, w')
    /\ documents w' = documents Demo.ingested_once
    /\ document_chunks w' = document_chunks Demo.ingested_once
    /\ map point_id (collection w') = [1%nat; 3%nat].
Proof.
  destruct (changed_document_with_chunks_raises (Demo.env Demo.no_faults)
              "docs/a.md" "a" "Hello world. Bye now." Demo.ingested_once
              (mkDocument 0%nat "docs/a.md" "a" "Hello world. Bye." true))
    as (w' & Heq & _ & Hdocs & Hrows & Hcoll).
  { reflexivity. }
  { reflexivity. }
  { vm_compute. discriminate. }
  { vm_compute. discriminate. }
  exists w'. split; [exact Heq|]. split; [exact Hdocs|]. split; [exact Hrows|].
  rewrite Hcoll. reflexivity.
Defined.

End ChangedFacts.

(** ** [TextProcessor.clean_text]: the words of a text *)

Module CleanMore.
Import Py TextProcessor Stated Aux StrFacts.

Lemma truthy_join_words ws :
  ws <> [] -> Forall is_word ws -> truthy (join " " ws) = true.
Proof.
  destruct ws as [|w ws]; [congruence|]. intros _ H.
  apply Forall_cons in H as [[Hw _] _].
  destruct ws; [exact Hw|]. rewrite join_cons_cons.
  destruct w; [discriminate|reflexivity].
Qed.

Lemma rstrip_cons_no_space c s :
  isspace c = false -> rstrip (String c s) = String c (rstrip s).
Proof. intros Hc. cbn [rstrip]. destruct (rstrip s); [now rewrite Hc|reflexivity]. Qed.

(** The text that follows the head word in [' '.join(s.split())]. *)
Lemma re_sub_spaces_rstrip s :
  rstrip (re_sub_spaces_go s true) = join " " (split s)
  /\ rstrip (re_sub_spaces_go s false)
     = fst (split_go s)
       +:+ match snd (split_go s) with
           | [] => ""
           | ws => " " +:+ join " " ws
           end.
Proof.
  induction s as [|c s [IH1 IH2]]; [split; reflexivity|].
  pose proof (split_go_words s) as [Hw Hws].
  unfold split in *. cbn [re_sub_spaces_go split_go].
  destruct (split_go s) as [w ws]. cbn [fst snd] in *.
  destruct (isspace c) eqn:Hc; cbn [fst snd].
  - split; [exact IH1|].
    cbn [rstrip]. rewrite IH1. rewrite append_empty_l.
    set (l := if truthy w then w :: ws else ws) in *.
    assert (Hl : Forall is_word l).
    { unfold l. destruct (truthy w) eqn:Ht; [|assumption].
      constructor; [split|]; assumption. }
    destruct l as [|x l]; [reflexivity|].
    pose proof (truthy_join_words (x :: l) ltac:(discriminate) Hl) as Ht.
    destruct (join " " (x :: l)); [discriminate|reflexivity].
  - rewrite !rstrip_cons_no_space by assumption. rewrite IH2.
    split; [|now rewrite append_cons].
    cbn [truthy]. destruct ws as [|x ws]; [|reflexivity].
    cbn [join]. now rewrite CleanFacts.append_empty_r.
Qed.

Lemma lstrip_re_sub_spaces_in_run s :
  lstrip (re_sub_spaces_go s true) = re_sub_spaces_go s true.
Proof.
  induction s as [|c s IH]; [reflexivity|]. cbn [re_sub_spaces_go].
  destruct (isspace c) eqn:Hc; [exact IH|]. cbn [lstrip]. now rewrite Hc.
Qed.

Lemma lstrip_re_sub_spaces s :
  lstrip (re_sub_spaces_go s false) = re_sub_spaces_go s true.
Proof.
  destruct s as [|c s]; [reflexivity|]. cbn [re_sub_spaces_go].
  destruct (isspace c) eqn:Hc.
  - cbn [lstrip]. change (isspace " ") with true. cbn iota.
    apply lstrip_re_sub_spaces_in_run.
  - cbn [lstrip]. now rewrite Hc.
Qed.

Lemma clean_text_join_split text : clean_text text = join " " (split text).
Proof.
  unfold clean_text, re_sub_blank_lines.
  rewrite CleanFacts.re_sub_blank_lines_go_id by apply CleanFacts.re_sub_spaces_no_newline.
  unfold strip, re_sub_spaces. rewrite lstrip_re_sub_spaces.
  apply re_sub_spaces_rstrip.
Qed.

(** X1.  [clean_text] normalises whitespace and does nothing else: its
    result is the words of the text, as [str.split] gives them, joined
    by single spaces; the cleaned text has the words of the text. *)
Theorem clean_text_is_join_of_split (text : string) :
  clean_text text = join " " (split text)
  /\ split (clean_text text) = split text.
Proof.
  rewrite clean_text_join_split. split; [reflexivity|].
  apply split_join, split_words.
Qed.

(** X2.  [clean_text] is idempotent: cleaning a cleaned text changes
    nothing. *)
Theorem clean_text_idempotent (text : string) :
  clean_text (clean_text text) = clean_text text.
Proof.
  rewrite !clean_text_join_split. now rewrite split_join by apply split_words.
Qed.

End CleanMore.

(** ** [TextProcessor._split_large_chunk]: the words of the sub-chunks *)

Module WindowFacts.
Import Py TextProcessor Stated Aux StrFacts WordPassInv.

Lemma windows_of_snoc closed current word :
  windows_of closed (current ++ [word])
  = match current with
    | [] => closed ++ [[word]]
    | _ => closed ++ [current ++ [word]]
    end.
Proof. destruct current; reflexivity. Qed.

Lemma windows_of_cons closed c current :
  windows_of closed (c :: current) = closed ++ [c :: current].
Proof. reflexivity. Qed.

Lemma overlap_words_sublist (overlap : Z) (current : list string) :
  exists k, (if Z.of_nat (length current) >=? overlap
             then slice_from (- overlap) current
             else current) = drop k current.
Proof.
  destruct (Z.of_nat (length current) >=? overlap).
  - unfold slice_from. destruct (0 <=? - overlap); eauto.
  - exists 0%nat. reflexivity.
Qed.

Section AnyOverlap.
Variables (chunk_size overlap : Z).

Lemma split_step_window_inv read st word :
  is_word word -> window_inv read st ->
  window_inv (read ++ [word]) (split_step chunk_size overlap st word).
Proof.
  destruct st as [[chunks current] size].
  intros Hw (closed & -> & Hwf & Hin). unfold split_step.
  destruct current as [|c current].
  - cbn [length Nat.eqb negb]. rewrite andb_false_r. cbn [app window_inv].
    exists closed. cbn [windows_of] in *. split; [reflexivity|]. split.
    + apply Forall_app. split; [assumption|]. apply Forall_singleton.
      split; [discriminate|now apply Forall_singleton].
    + intros w Hr. apply in_app_or in Hr as [Hr|[->|[]]].
      * destruct (Hin w Hr) as (window & Hwin & Hww).
        exists window. split; [apply in_or_app; now left|assumption].
      * exists [w]. split; [apply in_or_app; right; now left|now left].
  - rewrite windows_of_cons in Hwf, Hin.
    assert (Hcur : Forall is_word (c :: current)).
    { apply Forall_app in Hwf as [_ Hwf]. apply Forall_inv in Hwf. tauto. }
    change (negb (Nat.eqb (length (c :: current)) 0)) with true.
    rewrite andb_true_r.
    destruct (size + len word >? chunk_size).
    + assert (Hnew : forall seed_words : list string,
                Forall is_word seed_words ->
                window_inv (read ++ [word])
                  (map (join " ") closed ++ [join " " (c :: current)],
                   seed_words ++ [word],
                   sum_len (seed_words ++ [word])
                   + Z.of_nat (length (seed_words ++ [word])) - 1)).
      { intros seed_words Hseed. cbn [window_inv].
        exists (closed ++ [c :: current]).
        assert (Hwin : windows_of (closed ++ [c :: current]) (seed_words ++ [word])
                       = (closed ++ [c :: current]) ++ [seed_words ++ [word]]).
        { unfold windows_of. destruct (seed_words ++ [word]) eqn:E; [|reflexivity].
          now destruct seed_words. }
        rewrite Hwin. split; [now rewrite map_app|]. split.
        - apply Forall_app. split; [assumption|]. apply Forall_singleton. split.
          + now destruct seed_words.
          + apply Forall_app. split; [assumption|now apply Forall_singleton].
        - intros w Hr. apply in_app_or in Hr as [Hr|[->|[]]].
          + destruct (Hin w Hr) as (window & Hwin' & Hww).
            exists window. split; [apply in_or_app; now left|assumption].
          + exists (seed_words ++ [w]). split.
            * apply in_or_app. right. now left.
            * apply in_or_app. right. now left. }
      destruct (overlap >? 0).
      * destruct (overlap_words_sublist overlap (c :: current)) as [k ->].
        apply Hnew. now apply Forall_drop.
      * apply (Hnew []). constructor.
    + cbn [window_inv]. exists closed.
      change (windows_of closed ((c :: current) ++ [word]))
        with (closed ++ [(c :: current) ++ [word]]).
      split; [reflexivity|]. split.
      * apply Forall_app in Hwf as [Hwf _]. apply Forall_app. split; [assumption|].
        apply Forall_singleton. split; [discriminate|].
        apply Forall_app. split; [assumption|now apply Forall_singleton].
      * intros w Hr. apply in_app_or in Hr as [Hr|[->|[]]].
        -- destruct (Hin w Hr) as (window & Hwin & Hww).
           apply in_app_or in Hwin as [Hwin|[<-|[]]].
           ++ exists window. split; [apply in_or_app; now left|assumption].
           ++ exists ((c :: current) ++ [word]). split.
              ** apply in_or_app. right. now left.
              ** apply in_or_app. now left.
        -- exists ((c :: current) ++ [w]). split.
           ++ apply in_or_app. right. now left.
           ++ apply in_or_app. right. now left.
Qed.

Lemma fold_split_step_window_inv words read st :
  Forall is_word words -> window_inv read st ->
  window_inv (read ++ words) (fold_left (split_step chunk_size overlap) words st).
Proof.
  revert read st. induction words as [|w words IH]; intros read st Hw H.
  - now rewrite app_nil_r.
  - apply Forall_cons in Hw as [Hw Hws]. cbn [fold_left].
    replace (read ++ w :: words) with ((read ++ [w]) ++ words)
      by now rewrite <- app_assoc.
    apply IH; [assumption|]. now apply split_step_window_inv.
Qed.

(** The sub-chunks of [_split_large_chunk] are the joins of windows of
    words. *)
Lemma split_large_chunk_any_overlap chunk :
  exists windows,
    _split_large_chunk chunk chunk_size overlap = map (join " ") windows
    /\ Forall (fun window => window <> [] /\ Forall is_word window) windows
    /\ (forall w, In w (split chunk) -> exists window,
           In window windows /\ In w window).
Proof.
  unfold _split_large_chunk.
  assert (H0 : window_inv [] ([], [], 0)).
  { exists []. cbn [windows_of map]. split; [reflexivity|].
    split; [constructor|]. intros w []. }
  apply (fold_split_step_window_inv (split chunk)) in H0; [|apply split_words].
  rewrite app_nil_l in H0.
  destruct (fold_left _ _ _) as [[chunks current] size].
  destruct H0 as (closed & -> & Hwf & Hin).
  exists (windows_of closed current). split; [|split; assumption].
  destruct current; cbn [windows_of]; [reflexivity|]. now rewrite map_app.
Qed.

End AnyOverlap.

(** X5.  Whatever [chunk_size] and [overlap] are, [_split_large_chunk]
    loses no word: every sub-chunk is a non-empty sequence of words
    joined by single spaces, every word of the chunk occurs in some
    sub-chunk, and a chunk without words gives no sub-chunk. *)
Theorem split_large_chunk_loses_no_word (chunk : string) (chunk_size overlap : Z) :
  Forall (fun sub_chunk => split sub_chunk <> []
                           /\ join " " (split sub_chunk) = sub_chunk)
         (_split_large_chunk chunk chunk_size overlap)
  /\ (forall word, In word (split chunk) ->
        exists sub_chunk,
          In sub_chunk (_split_large_chunk chunk chunk_size overlap)
          /\ In word (split sub_chunk))
  /\ (split chunk = [] -> _split_large_chunk chunk chunk_size overlap = []).
Proof.
  destruct (split_large_chunk_any_overlap chunk_size overlap chunk)
    as (windows & Heq & Hwf & Hin).
  split; [|split].
  - rewrite Heq. apply List.Forall_forall. intros sub Hsub.
    apply in_map_iff in Hsub as (window & <- & Hwindow).
    apply (proj1 (List.Forall_forall _ _) Hwf) in Hwindow as [Hne Hwords].
    rewrite split_join by assumption. split; [assumption|reflexivity].
  - intros word Hword. destruct (Hin word Hword) as (window & Hwindow & Hww).
    exists (join " " window). split.
    + rewrite Heq. now apply in_map.
    + apply (proj1 (List.Forall_forall _ _) Hwf) in Hwindow as [_ Hwords].
      now rewrite split_join.
  - intros Hnil. unfold _split_large_chunk. now rewrite Hnil.
Qed.

Section NoOverlap.
Variables (chunk_size overlap : Z).
Hypothesis no_overlap : overlap <= 0.

Lemma split_step_partition_inv read st word :
  is_word word -> partition_inv chunk_size read st ->
  partition_inv chunk_size (read ++ [word]) (split_step chunk_size overlap st word).
Proof.
  destruct st as [[chunks current] size].
  intros Hw (closed & -> & Hcat & Hwf & Hbound & Hnil & Hsize). unfold split_step.
  destruct current as [|c current].
  - destruct (Hnil eq_refl) as [-> ->].
    cbn [length Nat.eqb negb]. rewrite andb_false_r. cbn [app partition_inv].
    exists []. cbn [windows_of app map concat] in *. subst read.
    split; [reflexivity|]. split; [reflexivity|].
    split; [constructor; [constructor; [exact Hw|constructor]|constructor]|].
    split; [constructor; [now right|constructor]|].
    split; [discriminate|]. intros _. right. cbn [join]. lia.
  - rewrite windows_of_cons in Hcat, Hwf, Hbound.
    apply List.Forall_app in Hwf as [Hwf1 Hwf2].
    apply List.Forall_app in Hbound as [Hb1 Hb2].
    assert (Hcur : Forall is_word (c :: current)) by now inversion Hwf2.
    assert (Hsz : size = len (join " " (c :: current))
                  \/ size = len (join " " (c :: current)) + 1)
      by (apply Hsize; discriminate).
    clear Hsize Hnil.
    change (negb (Nat.eqb (length (c :: current)) 0)) with true.
    rewrite andb_true_r.
    destruct (Z.gtb_spec (size + len word) chunk_size) as [Hgt|Hle].
    + destruct (Z.gtb_spec overlap 0) as [Hov|_]; [lia|].
      cbn [partition_inv]. exists (closed ++ [c :: current]).
      cbn [windows_of].
      split; [now rewrite map_app|].
      split; [now rewrite concat_app, Hcat|].
      split.
      { apply List.Forall_app. split.
        - apply List.Forall_app. now split.
        - constructor; [constructor; [exact Hw|constructor]|constructor]. }
      split.
      { apply List.Forall_app. split.
        - apply List.Forall_app. now split.
        - constructor; [now right|constructor]. }
      split; [discriminate|]. intros _. left. reflexivity.
    + cbn [partition_inv]. exists closed.
      change (windows_of closed ((c :: current) ++ [word]))
        with (closed ++ [(c :: current) ++ [word]]).
      rewrite concat_app in Hcat. cbn [concat] in Hcat. rewrite app_nil_r in Hcat.
      pose proof (len_nonneg (join " " (c :: current))) as Hnn.
      assert (Hlen : len (join " " ((c :: current) ++ [word]))
                     = len (join " " (c :: current)) + 1 + len word)
        by (apply len_join_snoc; discriminate).
      split; [reflexivity|].
      split.
      { rewrite concat_app. cbn [concat]. rewrite app_nil_r, <- Hcat.
        now rewrite app_assoc. }
      split.
      { apply List.Forall_app. split; [assumption|].
        constructor; [|constructor].
        apply List.Forall_app. split; [assumption|].
        constructor; [exact Hw|constructor]. }
      split.
      { apply List.Forall_app. split; [assumption|].
        constructor; [|constructor]. left. lia. }
      split; [discriminate|].
      intros _. lia.
Qed.

Lemma fold_split_step_partition_inv words read st :
  Forall is_word words -> partition_inv chunk_size read st ->
  partition_inv chunk_size (read ++ words)
    (fold_left (split_step chunk_size overlap) words st).
Proof.
  revert read st. induction words as [|w words IH]; intros read st Hw H.
  - now rewrite app_nil_r.
  - apply Forall_cons in Hw as [Hw Hws]. cbn [fold_left].
    replace (read ++ w :: words) with ((read ++ [w]) ++ words)
      by now rewrite <- app_assoc.
    apply IH; [assumption|]. now apply split_step_partition_inv.
Qed.

Lemma split_large_chunk_partition chunk :
  exists windows,
    _split_large_chunk chunk chunk_size overlap = map (join " ") windows
    /\ concat windows = split chunk
    /\ Forall (Forall is_word) windows
    /\ Forall (fun window => len (join " " window) <= chunk_size + 1
                             \/ length window = 1%nat) windows.
Proof.
  unfold _split_large_chunk.
  assert (H0 : partition_inv chunk_size [] ([], [], 0)).
  { exists []. cbn [windows_of map concat].
    split; [reflexivity|]. split; [reflexivity|].
    split; [constructor|]. split; [constructor|].
    split; [tauto|congruence]. }
  apply (fold_split_step_partition_inv (split chunk)) in H0; [|apply split_words].
  rewrite app_nil_l in H0.
  destruct (fold_left _ _ _) as [[chunks current] size].
  destruct H0 as (closed & -> & Hcat & Hwf & Hbound & _).
  exists (windows_of closed current). split; [|repeat split; assumption].
  destruct current; cbn [windows_of]; [reflexivity|]. now rewrite map_app.
Qed.

End NoOverlap.

Lemma map_split_join windows :
  Forall (Forall is_word) windows -> map split (map (join " ") windows) = windows.
Proof.
  induction 1 as [|w ws Hw _ IH]; [reflexivity|].
  cbn [map]. now rewrite split_join, IH.
Qed.

(** X4.  Without overlap ([overlap <= 0]) the word pass is a partition:
    the words of the sub-chunks, read in order, are the words of the
    chunk, none lost, repeated or moved. *)
Theorem split_large_chunk_partitions_the_words (chunk : string)
    (chunk_size overlap : Z) :
  overlap <= 0 ->
  concat (map split (_split_large_chunk chunk chunk_size overlap)) = split chunk.
Proof.
  intros Hov.
  destruct (split_large_chunk_partition chunk_size overlap Hov chunk)
    as (windows & -> & Hcat & Hwf & _).
  now rewrite map_split_join.
Qed.

Lemma split_large_chunk_partitions_the_words_witness :
  concat (map split (_split_large_chunk "aa bb cc dd" 5 0)) = ["aa"; "bb"; "cc"; "dd"].
Proof.
  apply (split_large_chunk_partitions_the_words "aa bb cc dd" 5 0). lia.
Defined.

(** X6.  Without overlap every chunk of [chunk_text] has at most
    [chunk_size + 1] characters (the word pass counts the first word of
    a later sub-chunk without its space), or it is one single word. *)
Theorem chunk_text_without_overlap_bound (text : string) (chunk_size overlap : Z) :
  overlap <= 0 ->
  Forall (fun chunk => len chunk <= chunk_size + 1 \/ split chunk = [chunk])
         (chunk_text text chunk_size overlap).
Proof.
  intros Hov. rewrite ChunkFacts.chunk_text_concat.
  apply List.Forall_forall. intros c Hc.
  apply in_concat in Hc as (l & Hl & Hc).
  apply in_map_iff in Hl as (chunk & <- & _). unfold resplit in Hc.
  destruct (Z.gtb_spec (len chunk) chunk_size) as [Hgt|Hle].
  - destruct (split_large_chunk_partition chunk_size overlap Hov chunk)
      as (windows & Heq & _ & Hwf & Hbound).
    rewrite Heq in Hc. apply in_map_iff in Hc as (window & <- & Hwindow).
    apply (proj1 (List.Forall_forall _ _) Hbound) in Hwindow as Hb.
    destruct Hb as [Hb|Hb]; [now left|right].
    apply (proj1 (List.Forall_forall _ _) Hwf) in Hwindow as Hw.
    destruct window as [|w [|? ?]]; try discriminate.
    apply Forall_inv in Hw. cbn [join]. now apply split_word.
  - destruct Hc as [<-|[]]. left. lia.
Qed.

Lemma chunk_text_without_overlap_bound_witness :
  Forall (fun chunk => len chunk <= 11 \/ split chunk = [chunk])
         (chunk_text "aaaaaaaaa bbbbb ccccc" 10 0).
Proof. apply (chunk_text_without_overlap_bound "aaaaaaaaa bbbbb ccccc" 10 0). lia. Defined.

End WindowFacts.

(** ** [TextProcessor.chunk_text]: the chunks are stripped *)

Module TrimFacts.
Import Py TextProcessor Stated Aux StrFacts.

Lemma rstrip_idem s : rstrip (rstrip s) = rstrip s.
Proof.
  induction s as [|c s IH]; [reflexivity|]. cbn [rstrip].
  destruct (rstrip s) as [|c' r] eqn:Hr.
  - destruct (isspace c) eqn:Hc; [reflexivity|]. cbn [rstrip]. now rewrite Hc.
  - cbn [rstrip] in *. now rewrite IH.
Qed.

(** A string that does not start with whitespace. *)
Lemma lstrip_fixed_cons c s : isspace c = false -> lstrip (String c s) = String c s.
Proof. intros Hc. cbn [lstrip]. now rewrite Hc. Qed.

Lemma lstrip_head s :
  lstrip s = "" \/ exists c s', lstrip s = String c s' /\ isspace c = false.
Proof.
  induction s as [|c s IH]; [now left|]. cbn [lstrip].
  destruct (isspace c) eqn:Hc; [exact IH|]. right. eauto.
Qed.

Lemma lstrip_rstrip_fixed s : lstrip s = s -> lstrip (rstrip s) = rstrip s.
Proof.
  intros Hs. destruct (lstrip_head s) as [H|(c & s' & H & Hc)]; rewrite Hs in H.
  - now subst s.
  - subst s. cbn [rstrip]. destruct (rstrip s'); rewrite ?Hc; cbn [lstrip]; now rewrite Hc.
Qed.

Lemma lstrip_idem s : lstrip (lstrip s) = lstrip s.
Proof.
  induction s as [|c s IH]; [reflexivity|]. cbn [lstrip].
  destruct (isspace c) eqn:Hc; [exact IH|]. cbn [lstrip]. now rewrite Hc.
Qed.

Lemma strip_idem s : strip (strip s) = strip s.
Proof.
  unfold strip. rewrite (lstrip_rstrip_fixed (lstrip s)) by apply lstrip_idem.
  apply rstrip_idem.
Qed.

Lemma rstrip_no_space w : truthy w = true -> no_space w = true -> rstrip w = w.
Proof.
  induction w as [|c w IH]; [discriminate|]. intros _ Hn. cbn [no_space] in Hn.
  apply andb_true_iff in Hn as [Hc Hw]. apply negb_true_iff in Hc.
  rewrite CleanMore.rstrip_cons_no_space by assumption.
  destruct w as [|c' w]; [reflexivity|]. now rewrite IH.
Qed.

Lemma rstrip_app_fixed p x :
  rstrip x = x -> truthy x = true -> rstrip (p +:+ x) = p +:+ x.
Proof.
  intros Hx Ht. induction p as [|c p IH]; [exact Hx|].
  rewrite append_cons. cbn [rstrip]. rewrite IH.
  destruct (p +:+ x) eqn:E; [|reflexivity].
  destruct p; [rewrite append_empty_l in E; subst x|]; discriminate.
Qed.

Lemma truthy_app_r p x : truthy x = true -> truthy (p +:+ x) = true.
Proof. intros H. destruct p; [exact H|reflexivity]. Qed.

Lemma rstrip_join_words ws :
  ws <> [] -> Forall is_word ws ->
  rstrip (join " " ws) = join " " ws /\ truthy (join " " ws) = true.
Proof.
  intros Hne H. induction H as [|w ws [Ht Hn] Hws IH]; [congruence|].
  destruct ws as [|q ws].
  - cbn [join]. split; [now apply rstrip_no_space|assumption].
  - rewrite join_cons_cons. destruct (IH ltac:(discriminate)) as [IH1 IH2].
    assert (Hx : rstrip (" " +:+ join " " (q :: ws)) = " " +:+ join " " (q :: ws)).
    { apply (rstrip_app_fixed " "); assumption. }
    split.
    + apply rstrip_app_fixed; [exact Hx|]. now apply truthy_app_r.
    + now apply truthy_app_r, truthy_app_r.
Qed.

Lemma strip_join_words ws :
  ws <> [] -> Forall is_word ws -> strip (join " " ws) = join " " ws.
Proof.
  intros Hne H. unfold strip.
  assert (Hl : lstrip (join " " ws) = join " " ws).
  { destruct ws as [|w ws]; [congruence|]. apply Forall_cons in H as [[Ht Hn] _].
    destruct w as [|c w]; [discriminate|]. cbn [no_space] in Hn.
    apply andb_true_iff in Hn as [Hc _]. apply negb_true_iff in Hc.
    destruct ws; [now apply lstrip_fixed_cons|].
    rewrite join_cons_cons, append_cons. now apply lstrip_fixed_cons. }
  rewrite Hl. now apply rstrip_join_words.
Qed.

(** The chunks closed by the sentence loop are stripped texts. *)
Lemma chunk_step_stripped chunk_size overlap st sentence :
  Forall (fun c => strip c = c) (fst st) ->
  Forall (fun c => strip c = c) (fst (chunk_step chunk_size overlap st sentence)).
Proof.
  destruct st as [chunks current]. cbn [fst]. intros H. unfold chunk_step.
  destruct (len current + len sentence >? chunk_size); [|exact H].
  destruct (truthy current).
  - destruct (overlap >? 0); cbn [fst]; apply Forall_app; split; try assumption;
      apply Forall_singleton, strip_idem.
  - cbn [fst]. apply Forall_app. split; [assumption|].
    apply Forall_singleton, strip_idem.
Qed.

Lemma sentence_chunks_stripped text chunk_size overlap :
  Forall (fun c => strip c = c) (sentence_chunks text chunk_size overlap).
Proof.
  unfold sentence_chunks.
  assert (H : forall sentences st,
             Forall (fun c => strip c = c) (fst st) ->
             Forall (fun c => strip c = c)
                    (fst (fold_left (chunk_step chunk_size overlap) sentences st))).
  { induction sentences as [|s sentences IH]; intros st Hst; [exact Hst|].
    cbn [fold_left]. apply IH. now apply chunk_step_stripped. }
  specialize (H (re_split_sentences text) ([], "") ltac:(constructor)).
  destruct (fold_left _ _ _) as [chunks current]. cbn [fst] in H.
  destruct (truthy current); [|exact H].
  apply Forall_app. split; [assumption|]. apply Forall_singleton, strip_idem.
Qed.

(** X3.  Every chunk that [chunk_text] returns is stripped: it neither
    starts nor ends with whitespace, whatever [chunk_size] and [overlap]
    are. *)
Theorem chunk_text_chunks_are_stripped (text : string) (chunk_size overlap : Z) :
  Forall (fun chunk => strip chunk = chunk) (chunk_text text chunk_size overlap).
Proof.
  rewrite ChunkFacts.chunk_text_concat. apply List.Forall_forall. intros c Hc.
  apply in_concat in Hc as (l & Hl & Hc).
  apply in_map_iff in Hl as (chunk & <- & Hchunk). unfold resplit in Hc.
  destruct (len chunk >? chunk_size).
  - destruct (WindowFacts.split_large_chunk_any_overlap chunk_size overlap chunk)
      as (windows & Heq & Hwf & _).
    rewrite Heq in Hc. apply in_map_iff in Hc as (window & <- & Hwindow).
    apply (proj1 (List.Forall_forall _ _) Hwf) in Hwindow as [Hne Hwords].
    now apply strip_join_words.
  - destruct Hc as [<-|[]].
    exact (proj1 (List.Forall_forall _ _)
                 (sentence_chunks_stripped text chunk_size overlap) _ Hchunk).
Qed.

End TrimFacts.

(** ** [TextProcessor.chunk_text]: a text that fits *)

Module ShortTextFacts.
Import Py TextProcessor Stated Aux StrFacts.

Lemma len_string_of_list_ascii l :
  len (string_of_list_ascii l) = Z.of_nat (length l).
Proof.
  unfold len. induction l as [|c l IH]; [reflexivity|].
  cbn [string_of_list_ascii String.length length]. lia.
Qed.

Lemma len_cons c s : len (String c s) = 1 + len s.
Proof. unfold len. cbn [String.length]. lia. Qed.

Lemma re_split_sentences_go_cons s cur after_end in_sep :
  exists piece pieces,
    re_split_sentences_go s cur after_end in_sep = piece :: pieces
    /\ (cur <> [] -> in_sep = false -> truthy piece = true).
Proof.
  revert cur after_end in_sep. induction s as [|c s IH]; intros cur ae sep.
  - cbn [re_split_sentences_go]. eexists. eexists. split; [reflexivity|].
    intros Hne _. destruct cur as [|a cur] using rev_ind; [congruence|].
    rewrite rev_app_distr. reflexivity.
  - cbn [re_split_sentences_go].
    destruct (sep && isspace c) eqn:E1.
    + destruct (IH cur false true) as (p & ps & -> & _).
      eexists. eexists. split; [reflexivity|].
      intros _ ->. discriminate.
    + destruct (ae && isspace c).
      * eexists. eexists. split; [reflexivity|].
        intros Hne _. destruct cur as [|a cur] using rev_ind; [congruence|].
        rewrite rev_app_distr. reflexivity.
      * destruct (IH (c :: cur) (is_sentence_end c) false) as (p & ps & -> & Hp).
        eexists. eexists. split; [reflexivity|].
        intros _ _. apply Hp; [discriminate|reflexivity].
Qed.

Lemma len_join_cons p ps :
  ps <> [] -> len (join " " (p :: ps)) = len p + 1 + len (join " " ps).
Proof.
  destruct ps as [|q ps]; [congruence|]. intros _.
  rewrite join_cons_cons, !len_append. change (len " ") with 1. lia.
Qed.

Lemma re_split_sentences_go_len s cur after_end in_sep :
  len (join " " (re_split_sentences_go s cur after_end in_sep))
  <= Z.of_nat (length cur) + len s.
Proof.
  revert cur after_end in_sep. induction s as [|c s IH]; intros cur ae sep.
  - cbn [re_split_sentences_go join]. rewrite len_string_of_list_ascii, length_rev.
    change (len "") with 0. lia.
  - cbn [re_split_sentences_go]. rewrite len_cons.
    destruct (sep && isspace c).
    + specialize (IH cur false true). lia.
    + destruct (ae && isspace c).
      * destruct (re_split_sentences_go_cons s [] false true) as (p & ps & Heq & _).
        specialize (IH [] false true). rewrite Heq in *.
        rewrite len_join_cons by discriminate.
        rewrite len_string_of_list_ascii, length_rev. cbn [length] in IH. lia.
      * specialize (IH (c :: cur) (is_sentence_end c) false).
        cbn [length] in IH. lia.
Qed.

Lemma append_assoc a b c : (a +:+ b) +:+ c = a +:+ (b +:+ c).
Proof.
  induction a as [|x a IH]; [reflexivity|]. rewrite !append_cons. now rewrite IH.
Qed.

Lemma len_join_ge_head p ps : len p <= len (join " " (p :: ps)).
Proof.
  destruct ps as [|q ps]; [cbn [join]; lia|].
  rewrite len_join_cons by discriminate.
  pose proof (len_nonneg (join " " (q :: ps))). lia.
Qed.

(** The sentence loop on sentences that fit together: they are all
    appended to the running chunk. *)
Lemma fold_chunk_step_fits chunk_size overlap rest current :
  truthy current = true ->
  len (join " " (current :: rest)) <= chunk_size ->
  fold_left (chunk_step chunk_size overlap) rest ([], current)
  = ([], join " " (current :: rest)).
Proof.
  revert current. induction rest as [|s rest IH]; intros current Ht Hlen.
  - reflexivity.
  - cbn [fold_left]. unfold chunk_step at 2.
    rewrite len_join_cons in Hlen by discriminate.
    pose proof (len_join_ge_head s rest) as Hs.
    destruct (Z.gtb_spec (len current + len s) chunk_size) as [Hgt|_]; [lia|].
    rewrite Ht. rewrite IH.
    + f_equal. destruct rest as [|q rest]; [reflexivity|].
      rewrite !join_cons_cons. now rewrite !append_assoc.
    + destruct current; [discriminate|reflexivity].
    + destruct rest as [|q rest].
      * cbn [join]. cbn [join] in Hlen. rewrite !len_append. change (len " ") with 1. lia.
      * rewrite len_join_cons by discriminate. rewrite !len_append.
        rewrite len_join_cons in Hlen by discriminate. change (len " ") with 1. lia.
Qed.

Lemma len_lstrip s : len (lstrip s) <= len s.
Proof.
  induction s as [|c s IH]; [reflexivity|]. cbn [lstrip].
  destruct (isspace c); [rewrite len_cons; lia|lia].
Qed.

Lemma len_rstrip s : len (rstrip s) <= len s.
Proof.
  induction s as [|c s IH]; [reflexivity|]. cbn [rstrip]. rewrite len_cons.
  destruct (rstrip s) eqn:E.
  - destruct (isspace c); [change (len "") with 0|rewrite len_cons; change (len "") with 0];
      pose proof (len_nonneg s); lia.
  - rewrite len_cons. lia.
Qed.

Lemma len_strip s : len (strip s) <= len s.
Proof. unfold strip. pose proof (len_rstrip (lstrip s)). pose proof (len_lstrip s). lia. Qed.

(** X7.  A non-empty text of at most [chunk_size] characters is not
    split: [chunk_text] returns one chunk, the sentences of the text
    joined by single spaces and stripped, whatever [overlap] is. *)
Theorem chunk_text_of_a_short_text (text : string) (chunk_size overlap : Z) :
  truthy text = true ->
  len text <= chunk_size ->
  chunk_text text chunk_size overlap
  = [strip (join " " (re_split_sentences text))].
Proof.
  intros Ht Hlen.
  pose proof (re_split_sentences_go_len text [] false false) as Hjoin.
  fold (re_split_sentences text) in Hjoin. cbn [length] in Hjoin.
  unfold chunk_text, sentence_chunks.
  assert (Hfirst : exists p ps, re_split_sentences text = p :: ps /\ truthy p = true).
  { destruct text as [|c text]; [discriminate|].
    unfold re_split_sentences. cbn [re_split_sentences_go andb].
    destruct (re_split_sentences_go_cons text [c] (is_sentence_end c) false)
      as (p & ps & Heq & Hp).
    exists p, ps. split; [exact Heq|]. apply Hp; [discriminate|reflexivity]. }
  destruct Hfirst as (p & ps & Heq & Hp). rewrite Heq in *.
  cbn [fold_left]. unfold chunk_step at 2.
  pose proof (len_join_ge_head p ps) as Hhead.
  change (len "") with 0.
  destruct (Z.gtb_spec (0 + len p) chunk_size) as [Hgt|_]; [lia|].
  cbn [truthy]. rewrite fold_chunk_step_fits by (assumption || lia).
  assert (Htruthy : truthy (join " " (p :: ps)) = true).
  { destruct ps; [exact Hp|]. rewrite join_cons_cons.
    destruct p; [discriminate|reflexivity]. }
  rewrite Htruthy. cbn [app fold_left].
  pose proof (len_strip (join " " (p :: ps))) as Hstrip.
  destruct (Z.gtb_spec (len (strip (join " " (p :: ps)))) chunk_size) as [Hgt|_];
    [lia|reflexivity].
Qed.

Lemma chunk_text_of_a_short_text_witness :
  chunk_text "One.  Two!" 1000 100 = ["One. Two!"].
Proof. apply (chunk_text_of_a_short_text "One.  Two!" 1000 100); [reflexivity|]. vm_compute. discriminate. Defined.

End ShortTextFacts.

(** ** [TextProcessor.extract_headings] *)

Module HeadingFacts.
Import Py Headings HeadingShape StrFacts.

Lemma no_newline_cons c s :
  no_newline (String c s) <-> is_newline c = false /\ no_newline s.
Proof.
  unfold no_newline. cbn [list_ascii_of_string]. split.
  - intros H. inversion H; subst. now split.
  - intros [Hc Hs]. now constructor.
Qed.

Lemma split_on_cons sep text :
  exists piece pieces, split_on sep text = piece :: pieces.
Proof.
  induction text as [|c text (p & ps & IH)]; cbn [split_on]; [eauto|].
  destruct (Ascii.eqb c sep); [eauto|]. rewrite IH. eauto.
Qed.

Lemma split_on_newline_lines text :
  Forall no_newline (split_on newline text).
Proof.
  induction text as [|c text IH]; cbn [split_on].
  - repeat constructor.
  - fold (is_newline c). destruct (is_newline c) eqn:E.
    + constructor; [constructor|exact IH].
    + destruct (split_on newline text) as [|p ps]; [repeat constructor; exact E|].
      inversion IH; subst. constructor; [|assumption].
      apply no_newline_cons. now split.
Qed.

Lemma up_to_newline_no_newline s : no_newline s -> up_to_newline s = s.
Proof.
  induction s as [|c s IH]; [reflexivity|].
  intros [Hc Hs]%no_newline_cons. cbn [up_to_newline]. rewrite Hc. now rewrite IH.
Qed.

Lemma match_dot_plus_line c s :
  no_newline (String c s) -> match_dot_plus (String c s) = Some (String c s).
Proof. intros H. unfold match_dot_plus. now rewrite up_to_newline_no_newline. Qed.

Lemma strip_space_cons c s : isspace c = true -> strip (String c s) = strip s.
Proof. intros H. unfold strip. cbn [lstrip]. now rewrite H. Qed.

(** [\s*(.+)] on a line: it fails on the empty line only, and the group
    it captures differs from the line by surrounding whitespace. *)
Lemma match_spaces_dot_plus_line s :
  no_newline s ->
  match s with
  | EmptyString => match_spaces_dot_plus s = None
  | _ => exists g, match_spaces_dot_plus s = Some g /\ strip g = strip s
  end.
Proof.
  induction s as [|c s IH]; [reflexivity|].
  intros Hline. pose proof Hline as [Hc Hs]%no_newline_cons.
  cbn [match_spaces_dot_plus]. rewrite (match_dot_plus_line c s Hline).
  destruct (isspace c) eqn:Hsp; [|eauto].
  specialize (IH Hs). destruct s as [|d s].
  - rewrite IH. eauto.
  - destruct IH as (g & -> & Hg). exists g. split; [reflexivity|].
    now rewrite (strip_space_cons c).
Qed.

Lemma match_space_plus_dot_plus_line s g :
  no_newline s ->
  match_space_plus_dot_plus s = Some g ->
  exists c rest, s = String c rest /\ isspace c = true /\ rest <> ""
                 /\ strip g = strip s.
Proof.
  intros Hline. unfold match_space_plus_dot_plus.
  destruct s as [|c rest]; [discriminate|].
  destruct (isspace c) eqn:Hsp; [|discriminate].
  apply no_newline_cons in Hline as [_ Hrest].
  pose proof (match_spaces_dot_plus_line rest Hrest) as H.
  destruct rest as [|d rest]; [rewrite H; discriminate|].
  destruct H as (g' & -> & Hg'). intros [= <-].
  exists c, (String d rest). repeat split; [assumption|discriminate|].
  now rewrite (strip_space_cons c).
Qed.

Lemma match_space_plus_dot_plus_heading c rest :
  no_newline rest -> isspace c = true -> rest <> "" ->
  exists g, match_space_plus_dot_plus (String c rest) = Some g
            /\ strip g = strip (String c rest).
Proof.
  intros Hrest Hsp Hne. unfold match_space_plus_dot_plus. rewrite Hsp.
  pose proof (match_spaces_dot_plus_line rest Hrest) as H.
  destruct rest as [|d rest]; [congruence|].
  destruct H as (g & -> & Hg). exists g. split; [reflexivity|].
  now rewrite (strip_space_cons c).
Qed.

Lemma starts_with_hashes_spec k line :
  starts_with_hashes k line = true ->
  line = hashes k +:+ string_drop k line.
Proof.
  revert line. induction k as [|k IH]; intros line; [reflexivity|].
  destruct line as [|c line]; [discriminate|]. cbn [starts_with_hashes string_drop hashes].
  intros [Hc Hk]%andb_true_iff. apply Ascii.eqb_eq in Hc. subst c.
  rewrite append_cons. f_equal. now apply IH.
Qed.

Lemma starts_with_hashes_hashes k rest :
  starts_with_hashes k (hashes k +:+ rest) = true
  /\ string_drop k (hashes k +:+ rest) = rest.
Proof.
  induction k as [|k [IH1 IH2]]; [split; reflexivity|].
  cbn [hashes]. rewrite append_cons. cbn [starts_with_hashes string_drop].
  now rewrite IH1, IH2.
Qed.

(** Past the whitespace that ends the hashes no longer run of hashes
    starts the line. *)
Lemma starts_with_hashes_longer k n c rest :
  isspace c = true -> (k < n)%nat ->
  starts_with_hashes n (hashes k +:+ String c rest) = false.
Proof.
  intros Hsp. revert n. induction k as [|k IH]; intros n Hlt.
  - destruct n as [|n]; [lia|]. rewrite append_empty_l. cbn [starts_with_hashes].
    replace (is_hash c) with false; [reflexivity|].
    unfold is_hash. destruct (Ascii.eqb_spec c "#"%char) as [->|]; [discriminate|reflexivity].
  - destruct n as [|n]; [lia|]. cbn [hashes]. rewrite append_cons.
    cbn [starts_with_hashes]. rewrite IH by lia. apply andb_false_r.
Qed.

Lemma no_newline_drop k s : no_newline s -> no_newline (string_drop k s).
Proof.
  revert s. induction k as [|k IH]; intros s; [trivial|].
  destruct s as [|c s]; [trivial|]. intros [_ Hs]%no_newline_cons. now apply IH.
Qed.

Lemma no_newline_app a b : no_newline (a +:+ b) -> no_newline b.
Proof.
  induction a as [|c a IH]; [trivial|]. rewrite append_cons.
  intros [_ H]%no_newline_cons. now apply IH.
Qed.

Lemma match_heading_upto_sound n line k g :
  no_newline line ->
  match_heading_upto n line = Some (k, g) ->
  exists c rest,
    line = heading_line k c rest /\ (1 <= k <= n)%nat
    /\ isspace c = true /\ rest <> "" /\ strip g = strip (String c rest).
Proof.
  intros Hline. induction n as [|n IH]; [discriminate|].
  cbn [match_heading_upto].
  destruct (starts_with_hashes (S n) line) eqn:Hh.
  - destruct (match_space_plus_dot_plus (string_drop (S n) line)) as [g'|] eqn:Hm.
    + intros [= <- <-].
      apply match_space_plus_dot_plus_line in Hm as (c & rest & Hd & Hsp & Hne & Hg);
        [|now apply no_newline_drop].
      exists c, rest. apply starts_with_hashes_spec in Hh. rewrite Hd in Hh, Hg.
      repeat split; (assumption || lia).
    + intros H. destruct (IH H) as (c & rest & ? & ? & ? & ? & ?).
      exists c, rest. repeat split; (assumption || lia).
  - intros H. destruct (IH H) as (c & rest & ? & ? & ? & ? & ?).
    exists c, rest. repeat split; (assumption || lia).
Qed.

Lemma match_heading_upto_complete n k c rest :
  no_newline rest -> (1 <= k <= n)%nat -> isspace c = true -> rest <> "" ->
  exists g, match_heading_upto n (heading_line k c rest) = Some (k, g)
            /\ strip g = strip (String c rest).
Proof.
  intros Hrest Hk Hsp Hne. unfold heading_line.
  induction n as [|n IH]; [lia|]. cbn [match_heading_upto].
  destruct (Nat.eq_dec k (S n)) as [<-|Hneq].
  - destruct (starts_with_hashes_hashes k (String c rest)) as [-> ->].
    destruct (match_space_plus_dot_plus_heading c rest Hrest Hsp Hne) as (g & -> & Hg).
    eauto.
  - rewrite starts_with_hashes_longer by (assumption || lia). apply IH. lia.
Qed.

(** The loop over the numbered lines keeps the matching ones, in
    order. *)
Lemma fold_heading_step entries headings :
  fold_left heading_step entries headings
  = headings ++ omap heading_of entries.
Proof.
  revert headings. induction entries as [|[i line] entries IH]; intros headings.
  - cbn. now rewrite app_nil_r.
  - cbn [fold_left]. rewrite IH.
    change (omap heading_of ((i, line) :: entries))
      with (match heading_of (i, line) with
            | Some h => h :: omap heading_of entries
            | None => omap heading_of entries
            end).
    unfold heading_step, heading_of. cbn [fst snd].
    destruct (re_match_heading line) as [[n g]|]; [|reflexivity].
    now rewrite <- app_assoc.
Qed.

Lemma in_split_on_newline text i line :
  split_on newline text !! i = Some line -> no_newline line.
Proof.
  intros Hi. pose proof (split_on_newline_lines text) as Hlines.
  eapply Forall_forall in Hlines; [exact Hlines|].
  eapply list_elem_of_lookup_2; eassumption.
Qed.

Lemma extract_headings_sound text h :
  In h (extract_headings text) ->
  exists i k c rest,
    split_on newline text !! i = Some (heading_line k c rest)
    /\ (1 <= k <= 6)%nat /\ isspace c = true /\ rest <> ""
    /\ h = mkHeading (Z.of_nat k) (strip (String c rest)) (Z.of_nat i).
Proof.
  unfold extract_headings. rewrite fold_heading_step, app_nil_l.
  rewrite <- list_elem_of_In, list_elem_of_omap.
  intros ([i line] & Hin & Hm). unfold heading_of in Hm. cbn [fst snd] in Hm.
  apply list_elem_of_In, ServiceFacts.in_enumerate in Hin.
  destruct (re_match_heading line) as [[n g]|] eqn:E; [|discriminate].
  injection Hm as <-.
  apply match_heading_upto_sound in E as (c & rest & -> & Hn & Hsp & Hne & Hg);
    [|eapply in_split_on_newline; eassumption].
  exists i, n, c, rest. rewrite Hg. auto.
Qed.

(** X8.  [extract_headings] returns exactly the headings of the heading
    lines: an entry is in the result if and only if some line [i] of the
    text is [k] characters [#] with [1 <= k <= 6], one whitespace
    character and at least one more character; the entry then has level
    [k], position [i] and, as text, what follows the hashes, stripped
    (the empty string when only whitespace follows).  A line with seven
    or more [#], or with nothing after the whitespace, gives no entry. *)
Theorem extract_headings_are_the_heading_lines (text : string) (h : Heading) :
  In h (extract_headings text)
  <-> exists i k c rest,
        split_on newline text !! i = Some (heading_line k c rest)
        /\ (1 <= k <= 6)%nat /\ isspace c = true /\ rest <> ""
        /\ h = mkHeading (Z.of_nat k) (strip (String c rest)) (Z.of_nat i).
Proof.
  split; [apply extract_headings_sound|].
  unfold extract_headings. rewrite fold_heading_step, app_nil_l.
  rewrite <- list_elem_of_In, list_elem_of_omap.
  intros (i & k & c & rest & Hi & Hk & Hsp & Hne & ->).
  exists (i, heading_line k c rest). split.
  - apply list_elem_of_lookup. exists i.
    rewrite RowFacts.lookup_enumerate, Hi. reflexivity.
  - unfold heading_of. cbn [fst snd].
    assert (Hrest : no_newline rest).
    { apply in_split_on_newline in Hi.
      apply no_newline_app in Hi. now apply no_newline_cons in Hi. }
    destruct (match_heading_upto_complete 6 k c rest Hrest Hk Hsp Hne)
      as (g & Hm & Hg).
    unfold re_match_heading. rewrite Hm, Hg. reflexivity.
Qed.

Lemma omap_cons {A B} (f : A -> option B) x l :
  omap f (x :: l) = match f x with
                    | Some y => y :: omap f l
                    | None => omap f l
                    end.
Proof. reflexivity. Qed.

Lemma omap_positions_sorted (f : nat * string -> option Heading) lines start :
  (forall entry h, f entry = Some h -> position h = Z.of_nat entry.1) ->
  StronglySorted Z.lt
    (map position (omap f (imap (fun i x => (start + i, x)%nat) lines)))
  /\ Forall (fun p => Z.of_nat start <= p < Z.of_nat (start + length lines))
            (map position (omap f (imap (fun i x => (start + i, x)%nat) lines))).
Proof.
  intros Hf. revert start. induction lines as [|line lines IH]; intros start.
  - cbn. split; constructor.
  - rewrite imap_cons, omap_cons.
    assert (Hext : imap ((fun i x => ((start + i)%nat, x)) ∘ S) lines
                   = imap (fun i x => ((S start + i)%nat, x)) lines).
    { apply imap_ext. intros i x _. cbn. f_equal. lia. }
    rewrite Hext. destruct (IH (S start)) as [Hs Hb].
    assert (Hb' : Forall (fun p => Z.of_nat start <= p
                                   < Z.of_nat (start + length (line :: lines)))
                    (map position
                       (omap f (imap (fun i x => ((S start + i)%nat, x)) lines)))).
    { eapply List.Forall_impl; [|exact Hb]. cbn [length]. intros p Hp.
      cbn beta in *. lia. }
    destruct (f ((start + 0)%nat, line)) as [h|] eqn:E.
    + apply Hf in E. cbn [fst] in E. cbn [map]. split.
      * constructor; [exact Hs|]. eapply List.Forall_impl; [|exact Hb].
        intros p Hp. cbn beta in *. lia.
      * constructor; [cbn [length]; lia|exact Hb'].
    + split; assumption.
Qed.

(** X9.  The headings come in the order of the lines, at most one for
    a line: their positions increase strictly.  Each position is the
    index of a line of the text, each level is between 1 and 6, and each
    heading text is stripped. *)
Theorem extract_headings_positions_increase (text : string) :
  StronglySorted Z.lt (map position (extract_headings text))
  /\ Forall (fun h => 0 <= position h
                      < Z.of_nat (length (split_on newline text))
                      /\ 1 <= level h <= 6 /\ strip (Headings.text h) = Headings.text h)
            (extract_headings text).
Proof.
  split.
  - unfold extract_headings. rewrite fold_heading_step, app_nil_l.
    unfold World.enumerate.
    eapply (omap_positions_sorted heading_of (split_on newline text) 0).
    intros [i line] h. unfold heading_of. cbn [fst snd].
    destruct (re_match_heading line) as [[n g]|]; [|discriminate].
    now intros [= <-].
  - apply List.Forall_forall. intros h Hh.
    apply extract_headings_sound in Hh
      as (i & k & c & rest & Hi & Hk & Hsp & Hne & ->).
    cbn [position level Headings.text]. apply lookup_lt_Some in Hi.
    repeat split; try lia. apply TrimFacts.strip_idem.
Qed.

End HeadingFacts.
